(** * ip_counter: the segmented bitmap, the address codec and the batch pipeline

    A shallow embedding of [most_effective_solution.go].

    Conventions.
    - Go's [uint32], [byte], [int] and [uint] values are integers in [Z]; every
      operation that can wrap in Go has its wrap-around written out
      ([u32], [u64], [shl32], [shl8]).  [int] and [uint] are 64 bits wide.
    - A Go [string] is modelled by the sequence of runes that [range] yields
      on it.  All the string operations of the program ([ReadString] on a
      newline, [strings.TrimSpace], comparison with the empty string,
      [strings.Split] on a dot, [range]) are functions of that sequence.
    - A [[]byte] is its length together with its non-zero content; [make]
      gives the zeroed slice.  Indexing out of range panics in Go: the
      operations return [None] there.
    - The input is the sequence of runes the stream delivers followed by the
      error that ends it: [EOF] when it ends normally, another error when a
      read fails.  [ReadString] follows the contract of [bufio.Reader]: the
      line with its delimiter and a nil error, or the data read before the
      error together with the error.
    - The per-segment mutex makes every [MarkIP] call atomic with respect to
      its segment, and calls on distinct segments touch disjoint memory, so an
      execution of the worker pool is a sequence of [MarkIP] calls
      ([pool_step]).  The locks themselves carry no data and are not
      represented; neither are the channel capacities, which only bound how
      far the producer runs ahead. *)

From Stdlib Require Import ZArith Lia String Ascii.
From stdpp Require Import base option list gmap relations.

#[local] Set Warnings "-clear-no-such-hyp".

Local Open Scope Z_scope.

(** ** Constants *)

Definition BatchSize : Z := 250000.
Definition WorkerCount : Z := 8.
Definition MaxIP : Z := Z.shiftl 1 32.
Definition ReadBufferSize : Z := 2 * 1024 * 1024.
Definition BitmapSegments : Z := 256.
Definition BitsInByte : Z := 8.
Definition BytesPerSegment : Z := MaxIP / BitmapSegments / BitsInByte.

(** ** Machine arithmetic *)

Definition u32 (z : Z) : Z := z mod 2 ^ 32.
Definition u64 (z : Z) : Z := z mod 2 ^ 64.

(** [v << s] on a [uint32]: counts of 32 and more give 0. *)
Definition shl32 (v s : Z) : Z :=
  if s <? 32 then u32 (Z.shiftl v s) else 0.

(** [v << s] on a [byte]. *)
Definition shl8 (v s : Z) : Z :=
  if s <? 8 then (Z.shiftl v s) mod 2 ^ 8 else 0.

(** ** Strings *)

Abbreviation gostring := (list Z).

(** The runes of an ASCII literal. *)
Definition str (s : string) : gostring :=
  (λ a, Z.of_nat (nat_of_ascii a)) <$> list_ascii_of_string s.

(** [unicode.IsSpace]. *)
Definition isSpace (r : Z) : bool :=
  ((9 <=? r) && (r <=? 13)) || (r =? 32) || (r =? 133) || (r =? 160)
  || (r =? 5760) || ((8192 <=? r) && (r <=? 8202)) || (r =? 8232)
  || (r =? 8233) || (r =? 8239) || (r =? 8287) || (r =? 12288).

Fixpoint TrimLeft (s : gostring) : gostring :=
  match s with
  | [] => []
  | c :: s' => if isSpace c then TrimLeft s' else s
  end.

Definition TrimRight (s : gostring) : gostring := rev (TrimLeft (rev s)).

(** [strings.TrimSpace]. *)
Definition TrimSpace (s : gostring) : gostring := TrimRight (TrimLeft s).

(** [strings.Split(s, sep)] for a separator of one rune: the pieces of [s]
    between the occurrences of [sep]; a string without [sep], the empty one
    included, is its only piece. *)
Fixpoint Split (s : gostring) (sep : Z) : list gostring :=
  match s with
  | [] => [[]]
  | c :: s' =>
      if c =? sep then [] :: Split s' sep
      else match Split s' sep with
           | [] => [[c]]
           | w :: ws => (c :: w) :: ws
           end
  end.

(** ** ipToInt *)

(** [value = value*10 + uint32(c-'0')]. *)
Definition digit_step (value c : Z) : Z := u32 (u32 (value * 10) + u32 (c - 48)).

(** the inner loop over the runes of one segment *)
Definition segment_value (segment : gostring) : Z := fold_left digit_step segment 0.

(** [BitsInByte * uint(3-i)], a [uint] *)
Definition shift_count (i : Z) : Z := u64 (BitsInByte * u64 (3 - i)).

(** the outer loop, from index [i] on with the running [result] *)
Fixpoint ipToInt_loop (segments : list gostring) (i : Z) (result : Z) : Z :=
  match segments with
  | [] => result
  | segment :: rest =>
      let value := segment_value segment in
      ipToInt_loop rest (i + 1) (u32 (result + shl32 value (shift_count i)))
  end.

Definition ipToInt (ip : gostring) : Z := ipToInt_loop (Split ip 46) 0 0.

(** ** SegmentedBitmap *)

Record ByteSlice := { slice_len : Z; slice_mem : gmap Z Z }.

(** [make([]byte, n)] *)
Definition make_bytes (n : Z) : ByteSlice := {| slice_len := n; slice_mem := ∅ |}.

(** [s[i]] as a value *)
Definition slice_get (s : ByteSlice) (i : Z) : option Z :=
  if (0 <=? i) && (i <? slice_len s) then Some (default 0 (slice_mem s !! i)) else None.

(** [s[i] = v] *)
Definition slice_set (s : ByteSlice) (i v : Z) : option ByteSlice :=
  if (0 <=? i) && (i <? slice_len s)
  then Some {| slice_len := slice_len s; slice_mem := <[i := v]> (slice_mem s) |}
  else None.

Record SegmentedBitmap := { segments : list ByteSlice }.

(** [a[i]] on the array of segments *)
Definition segment_at (sb : SegmentedBitmap) (i : Z) : option ByteSlice :=
  if 0 <=? i then segments sb !! Z.to_nat i else None.

Definition NewSegmentedBitmap : SegmentedBitmap :=
  {| segments := replicate (Z.to_nat BitmapSegments) (make_bytes BytesPerSegment) |}.

Definition segmentIndex (ipInt : Z) : Z := ipInt / (MaxIP / BitmapSegments).
Definition localIP (ipInt : Z) : Z := ipInt mod (MaxIP / BitmapSegments).
Definition byteIndex (ipInt : Z) : Z := localIP ipInt / BitsInByte.
Definition bitOffset (ipInt : Z) : Z := localIP ipInt mod BitsInByte.

(** the triple [MarkIP] computes for an ordinal *)
Definition locate (ipInt : Z) : Z * Z * Z :=
  (segmentIndex ipInt, byteIndex ipInt, bitOffset ipInt).

Definition MarkIP (sb : SegmentedBitmap) (ipInt : Z) : option (bool * SegmentedBitmap) :=
  seg ← segment_at sb (segmentIndex ipInt);
  b ← slice_get seg (byteIndex ipInt);
  if negb (Z.land b (shl8 1 (bitOffset ipInt)) =? 0) then Some (false, sb)
  else
    seg' ← slice_set seg (byteIndex ipInt) (Z.lor b (shl8 1 (bitOffset ipInt)));
    Some (true, {| segments := <[Z.to_nat (segmentIndex ipInt) := seg']> (segments sb) |}).

Definition Cleanup (sb : SegmentedBitmap) : SegmentedBitmap :=
  {| segments := (λ _, make_bytes 0) <$> segments sb |}.

(** Reading the bitmap: the byte at a place, and the bit of an ordinal. *)
Definition byte_at (sb : SegmentedBitmap) (seg idx : Z) : option Z :=
  s ← segment_at sb seg; slice_get s idx.

Definition marked (sb : SegmentedBitmap) (ipInt : Z) : bool :=
  match byte_at sb (segmentIndex ipInt) (byteIndex ipInt) with
  | Some b => Z.testbit b (bitOffset ipInt)
  | None => false
  end.

Definition total_bytes (sb : SegmentedBitmap) : Z :=
  foldr (λ s acc, slice_len s + acc) 0 (segments sb).

(** Every segment has its full length and holds bytes. *)
Definition wf_slice (s : ByteSlice) : Prop :=
  slice_len s = BytesPerSegment ∧ map_Forall (λ _ v, 0 <= v < 256) (slice_mem s).

Definition wf_bitmap (sb : SegmentedBitmap) : Prop :=
  length (segments sb) = Z.to_nat BitmapSegments ∧ Forall wf_slice (segments sb).

(** ** processBatch *)

Inductive error : Type :=
  | EOF : error
  | Errno (code : Z) : error
  | Wrapped (msg : string) (cause : error) : error.

Fixpoint processBatch_loop (batch : list gostring) (sb : SegmentedBitmap) (uniqueCount : Z)
  : option (Z * SegmentedBitmap) :=
  match batch with
  | [] => Some (uniqueCount, sb)
  | ip :: rest =>
      match ip with
      | [] => processBatch_loop rest sb uniqueCount
      | _ =>
          '(fresh, sb') ← MarkIP sb (ipToInt ip);
          processBatch_loop rest sb' (if fresh : bool then uniqueCount + 1 else uniqueCount)
      end
  end.

(** The count, the (always nil) error, and the bitmap afterwards. *)
Definition processBatch (batch : list gostring) (sb : SegmentedBitmap)
  : option (Z * option error * SegmentedBitmap) :=
  '(uniqueCount, sb') ← processBatch_loop batch sb 0;
  Some (uniqueCount, None, sb').

(** the sequence of [MarkIP] calls for a list of ordinals, with the result of
    each call *)
Fixpoint mark_all (sb : SegmentedBitmap) (ordinals : list Z)
  : option (list bool * SegmentedBitmap) :=
  match ordinals with
  | [] => Some ([], sb)
  | o :: rest =>
      '(r, sb') ← MarkIP sb o;
      '(rs, sb'') ← mark_all sb' rest;
      Some (r :: rs, sb'')
  end.

(** ** The reader *)

(** A [bufio.Reader] over the input: the runes not yet consumed and the error
    the underlying stream gives once they are exhausted ([EOF] for a stream
    that ends normally). *)
Record Reader := { pending : gostring; tail_err : error }.

(** The first line of [s] up to and including [delim], and what follows it. *)
Fixpoint break_at (delim : Z) (s : gostring) : option (gostring * gostring) :=
  match s with
  | [] => None
  | c :: s' =>
      if c =? delim then Some ([c], s')
      else '(line, rest) ← break_at delim s'; Some (c :: line, rest)
  end.

(** [reader.ReadString(delim)]: the line with its delimiter, or the data read
    before the error together with the error. *)
Definition ReadString (reader : Reader) (delim : Z) : gostring * option error * Reader :=
  match break_at delim (pending reader) with
  | Some (line, rest) => (line, None, {| pending := rest; tail_err := tail_err reader |})
  | None => (pending reader, Some (tail_err reader),
             {| pending := []; tail_err := tail_err reader |})
  end.

Definition is_EOF (e : error) : bool :=
  match e with EOF => true | _ => false end.

(** The loop of [readBatch]; [todo] is [BatchSize - len(batch)], so the loop
    condition [len(batch) < BatchSize] is [todo > 0].  A nil batch is the
    empty one. *)
Fixpoint readBatch_loop (todo : nat) (batch : list gostring) (reader : Reader)
  : list gostring * option error * Reader :=
  match todo with
  | O => (batch, None, reader)
  | S todo' =>
      let '(line, err, reader') := ReadString reader 10 in
      match err with
      | Some e =>
          if is_EOF e && (0 <? Z.of_nat (length batch)) then (batch, None, reader')
          else ([], Some e, reader')
      | None => readBatch_loop todo' (batch ++ [TrimSpace line]) reader'
      end
  end.

Definition readBatch_of (batchSize : nat) (reader : Reader)
  : list gostring * option error * Reader :=
  readBatch_loop batchSize [] reader.

Definition readBatch : Reader → list gostring * option error * Reader :=
  readBatch_of (Z.to_nat BatchSize).

(** ** The pipeline *)

(** The producer goroutine: the batches it sends on [batchChan], in order.
    [None] when [fuel] iterations were not enough to reach the end. *)
Fixpoint producer_loop (fuel : nat) (batchSize : nat) (reader : Reader)
  : option (list (list gostring)) :=
  match fuel with
  | O => None
  | S fuel' =>
      let '(batch, err, reader') := readBatch_of batchSize reader in
      match err with
      | Some _ => Some []
      | None => (batch ::.) <$> producer_loop fuel' batchSize reader'
      end
  end.

Definition producer (batchSize : nat) (reader : Reader) : option (list (list gostring)) :=
  producer_loop (S (length (pending reader))) batchSize reader.

(** [worker] on the batches it receives from [batchChan]: the counts it sends
    on [resultChan] and the bitmap afterwards; a batch whose processing fails
    contributes no result.  One worker that receives every batch is the pool
    processing the batches one after the other in that order. *)
Fixpoint worker (batches : list (list gostring)) (sb : SegmentedBitmap)
  : option (list Z * SegmentedBitmap) :=
  match batches with
  | [] => Some ([], sb)
  | batch :: rest =>
      '(uniqueCount, err, sb') ← processBatch batch sb;
      '(results, sb'') ← worker rest sb';
      Some (match err with Some _ => results | None => uniqueCount :: results end, sb'')
  end.

(** the aggregation loop over [resultChan] *)
Definition aggregate (results : list Z) : Z := fold_left Z.add results 0.

(** Workers and aggregator on a fresh bitmap. *)
Definition run_pool (batches : list (list gostring)) : option (Z * option error) :=
  '(results, _) ← worker batches NewSegmentedBitmap;
  Some (aggregate results, None).

(** [countUniqueIPs]; [file] is the outcome of [os.Open]. *)
Definition countUniqueIPs_of (batchSize : nat) (file : error + Reader)
  : option (Z * option error) :=
  match file with
  | inl err => Some (0, Some (Wrapped "failed to open file: " err))
  | inr reader => batches ← producer batchSize reader; run_pool batches
  end.

Definition countUniqueIPs : error + Reader → option (Z * option error) :=
  countUniqueIPs_of (Z.to_nat BatchSize).

(** ** Notions used in the statements *)

(** The decimal number a string of digits denotes. *)
Definition decimal (s : gostring) : Z := fold_left (λ v c, v * 10 + (c - 48)) s 0.

Definition is_digit (c : Z) : bool := (48 <=? c) && (c <=? 57).

(** A decimal octet: one digit or more, denoting a number of 0..255. *)
Definition is_octet (s : gostring) : bool :=
  negb (bool_decide (s = [])) && forallb is_digit s && (decimal s <=? 255).

Definition dotted (a b c d : gostring) : gostring :=
  a ++ 46 :: b ++ 46 :: c ++ 46 :: d.

(** [ordinal = Σ octet[i] << (8 * (3 - i))] *)
Definition pack (o0 o1 o2 o3 : Z) : Z :=
  Z.shiftl o0 24 + Z.shiftl o1 16 + Z.shiftl o2 8 + Z.shiftl o3 0.

(** A well-formed dotted quad: four decimal octets between three dots. *)
Definition well_formed (ip : gostring) : Prop :=
  ∃ a b c d, ip = dotted a b c d ∧ is_octet a = true ∧ is_octet b = true
             ∧ is_octet c = true ∧ is_octet d = true.

(** The number of distinct ordinals of the non-empty lines of an input. *)
Definition nonempty_lines (input : list gostring) : list gostring :=
  filter (λ ip, ip ≠ []) input.

Definition distinct_ordinals (input : list gostring) : Z :=
  Z.of_nat (length (remove_dups (ipToInt <$> nonempty_lines input))).

(** The lines of a stream that end in a newline, as [readBatch] stores them,
    and the data after the last newline. *)
Definition terminated_lines (s : gostring) : list gostring :=
  (λ l, TrimSpace (l ++ [10])) <$> removelast (Split s 10).

Definition unterminated_line (s : gostring) : gostring := List.last (Split s 10) [].

(** All the lines of a stream, the last with or without its newline. *)
Definition all_lines (s : gostring) : list gostring :=
  terminated_lines s ++
  match unterminated_line s with [] => [] | l => [TrimSpace l] end.

(** The bitmap records exactly the ordinals of [seen]. *)
Definition tracks (sb : SegmentedBitmap) (seen : gset Z) : Prop :=
  wf_bitmap sb ∧ ∀ o, marked sb o = true ↔ o ∈ seen.

(** The set of ordinals of the non-empty lines. *)
Definition ordinals_of (input : list gostring) : gset Z :=
  list_to_set (ipToInt <$> nonempty_lines input).

(** The result of [ipToInt] on four segments of values [v0] to [v3]. *)
Definition ipToInt_loop_values (v0 v1 v2 v3 : Z) : Z :=
  u32 (u32 (u32 (u32 (0 + shl32 v0 (shift_count 0))
                 + shl32 v1 (shift_count (0 + 1)))
            + shl32 v2 (shift_count (0 + 1 + 1)))
       + shl32 v3 (shift_count (0 + 1 + 1 + 1))).

(** The text of [lines], each followed by a newline, and then [rest]. *)
Definition text (lines : list gostring) (rest : gostring) : gostring :=
  concat ((λ l, l ++ [10]) <$> lines) ++ rest.

(** What the producer passes on when the stream gives [n] terminated lines
    and then fails: the full batches. *)
Definition full_batches (batchSize : nat) (ls : list gostring) : list gostring :=
  take (batchSize * (length ls / batchSize))%nat ls.

(** A stream of two lines that ends normally, the last line without a newline. *)
Definition unterminated_input : Reader :=
  {| pending := text [str "10.0.0.1"] (str "10.0.0.2"); tail_err := EOF |}.

(** A stream that gives one full line and then fails. *)
Definition failing_stream : Reader :=
  {| pending := text [str "10.0.0.1"] []; tail_err := Errno 5 |}.

(** [countUniqueIPs] returns, without error, the count over all the lines
    read before the end of the stream. *)
Definition counts_read_prefix (r : Reader) : Prop :=
  countUniqueIPs (inr r)
  = Some (distinct_ordinals (terminated_lines (pending r)), None).

(** ** The worker pool as a transition system

    The executions of the pool at the grain of the atomic [MarkIP] calls. *)

(** A worker inside [processBatch]: the lines of its batch still to do and its
    running count. *)
Record Worker := { lines_left : list gostring; count : Z }.

(** The batches sent and not yet received, the workers that hold a batch,
    the shared bitmap, and the results sent so far. *)
Record Pool := {
  batchChan : list (list gostring);
  busy : list Worker;
  shared : SegmentedBitmap;
  resultChan : list Z
}.

Inductive pool_step : Pool → Pool → Prop :=
  | step_receive batch q ws sb rs :
      (length ws < Z.to_nat WorkerCount)%nat →
      pool_step (Build_Pool (batch :: q) ws sb rs)
                (Build_Pool q (ws ++ [Build_Worker batch 0]) sb rs)
  | step_skip ws1 rest n ws2 q sb rs :
      pool_step (Build_Pool q (ws1 ++ Build_Worker ([] :: rest) n :: ws2) sb rs)
                (Build_Pool q (ws1 ++ Build_Worker rest n :: ws2) sb rs)
  | step_mark ws1 ip rest n ws2 q sb rs (fresh : bool) sb' :
      ip ≠ [] → MarkIP sb (ipToInt ip) = Some (fresh, sb') →
      pool_step (Build_Pool q (ws1 ++ Build_Worker (ip :: rest) n :: ws2) sb rs)
                (Build_Pool q
                   (ws1 ++ Build_Worker rest (if fresh then n + 1 else n) :: ws2) sb' rs)
  | step_send ws1 n ws2 q sb rs :
      pool_step (Build_Pool q (ws1 ++ Build_Worker [] n :: ws2) sb rs)
                (Build_Pool q (ws1 ++ ws2) sb (rs ++ [n])).

Definition pool_start (batches : list (list gostring)) : Pool :=
  Build_Pool batches [] NewSegmentedBitmap [].

Definition pool_done (p : Pool) : Prop := batchChan p = [] ∧ busy p = [].

(** The counts the busy workers hold, and the lines they still have to do. *)
Definition held_counts (ws : list Worker) : Z := foldr (λ w acc, count w + acc) 0 ws.
Definition held_lines (ws : list Worker) : list gostring := concat (lines_left <$> ws).

(** The steps an execution has left at most. *)
Definition pool_measure (p : Pool) : nat :=
  (foldr (λ b acc, length b + 2 + acc) 0 (batchChan p)
   + foldr (λ w acc, length (lines_left w) + 1 + acc) 0 (busy p))%nat.

Definition pool_invariant (batches : list (list gostring)) (p : Pool) : Prop :=
  ∃ seen,
    tracks (shared p) seen
    ∧ aggregate (resultChan p) + held_counts (busy p) = Z.of_nat (size seen)
    ∧ seen ∪ ordinals_of (held_lines (busy p)) ∪ ordinals_of (concat (batchChan p))
      = ordinals_of (concat batches).

(** A decimal octet in its usual writing: no leading zero. *)
Definition canonical_octet (s : gostring) : bool :=
  is_octet s && (bool_decide (s = [48]) || negb (bool_decide (head s = Some 48))).

(** A dotted quad of octets in their usual writing. *)
Definition canonical (ip : gostring) : Prop :=
  ∃ a b c d, ip = dotted a b c d ∧ canonical_octet a = true ∧ canonical_octet b = true
             ∧ canonical_octet c = true ∧ canonical_octet d = true.

(** The write of [MarkIP] on its own: the bit at offset [k] of the byte at
    [byte] set in a segment, and the bit of an ordinal set in the bitmap. *)
Definition seg_set_bit (seg : ByteSlice) (byte k : Z) : ByteSlice :=
  {| slice_len := slice_len seg;
     slice_mem := <[byte := Z.lor (default 0 (slice_mem seg !! byte)) (2 ^ k)]>
                    (slice_mem seg) |}.

Definition set_bit (sb : SegmentedBitmap) (o : Z) : SegmentedBitmap :=
  if 0 <=? segmentIndex o
  then {| segments := alter (λ seg, seg_set_bit seg (byteIndex o) (bitOffset o))
                        (Z.to_nat (segmentIndex o)) (segments sb) |}
  else sb.

(** The [i]-th dot-separated segment of a string, empty when there is none. *)
Definition segment_of (ip : gostring) (i : nat) : gostring :=
  default [] (Split ip 46 !! i).

(** A string without white space at either end. *)
Definition trimmed (l : gostring) : Prop :=
  (∀ c t, l = c :: t → isSpace c = false) ∧ (∀ t c, l = t ++ [c] → isSpace c = false).

(** * Properties *)

(** ** The index computation *)

Lemma segment_size : MaxIP / BitmapSegments = 2 ^ 24.
Proof. reflexivity. Qed.

Lemma bytes_per_segment : BytesPerSegment = 2 ^ 21.
Proof. reflexivity. Qed.

Ltac unfold_locate :=
  unfold locate, bitOffset, byteIndex, localIP, segmentIndex in *;
  rewrite ?segment_size, ?bytes_per_segment in *;
  unfold BitsInByte, BitmapSegments in *.

Lemma bitOffset_range o : 0 <= bitOffset o < 8.
Proof. unfold_locate. apply Z.mod_pos_bound. lia. Qed.

Lemma byteIndex_range o : 0 <= byteIndex o < BytesPerSegment.
Proof.
  unfold_locate.
  pose proof (Z.mod_pos_bound o (2 ^ 24) eq_refl).
  split; [apply Z.div_pos; lia | apply Z.div_lt_upper_bound; lia].
Qed.

Lemma segmentIndex_range o : 0 <= o < 2 ^ 32 → 0 <= segmentIndex o < BitmapSegments.
Proof.
  intros Ho. unfold_locate.
  split; [apply Z.div_pos; lia | apply Z.div_lt_upper_bound; lia].
Qed.

(** An ordinal is recovered from its triple. *)
Lemma locate_inverse o :
  o = segmentIndex o * 2 ^ 24 + byteIndex o * 8 + bitOffset o.
Proof.
  unfold_locate.
  pose proof (Z.div_mod o (2 ^ 24) ltac:(lia)).
  pose proof (Z.div_mod (o mod 2 ^ 24) 8 ltac:(lia)).
  lia.
Qed.

Lemma locate_inj o1 o2 : locate o1 = locate o2 → o1 = o2.
Proof.
  intros H. unfold locate in H.
  pose proof (locate_inverse o1) as H1. pose proof (locate_inverse o2) as H2.
  injection H as Hs Hb Hk. rewrite Hs, Hb, Hk in H1. congruence.
Qed.

Lemma locate_of_triple s b k :
  0 <= b < BytesPerSegment → 0 <= k < 8 →
  locate (s * 2 ^ 24 + b * 8 + k) = (s, b, k).
Proof.
  rewrite bytes_per_segment. intros Hb Hk.
  assert (Hloc : (s * 2 ^ 24 + b * 8 + k) mod 2 ^ 24 = b * 8 + k).
  { rewrite <- Z.add_assoc, Z.add_comm, Z.mod_add by lia. apply Z.mod_small. lia. }
  unfold_locate. rewrite Hloc. f_equal; [f_equal|].
  - rewrite <- Z.add_assoc, Z.add_comm, Z.div_add by lia.
    rewrite Z.div_small by lia. lia.
  - rewrite Z.add_comm, Z.div_add by lia. rewrite Z.div_small by lia. lia.
  - rewrite Z.add_comm, Z.mod_add by lia. apply Z.mod_small. lia.
Qed.

Lemma segmentIndex_iff o k :
  segmentIndex o = k ↔ k * 2 ^ 24 <= o < (k + 1) * 2 ^ 24.
Proof.
  unfold_locate.
  pose proof (Z.div_mod o (2 ^ 24) ltac:(lia)).
  pose proof (Z.mod_pos_bound o (2 ^ 24) eq_refl).
  split; [intros <-; lia | nia].
Qed.

(** ** Bits of a byte *)

Lemma shl8_one k : 0 <= k < 8 → shl8 1 k = 2 ^ k.
Proof.
  intros Hk. unfold shl8. destruct (Z.ltb_spec k 8); [|lia].
  rewrite Z.shiftl_1_l. apply Z.mod_small. split; [lia|].
  apply Z.pow_lt_mono_r; lia.
Qed.

Lemma land_pow2_testbit b k :
  0 <= k → (Z.land b (2 ^ k) =? 0) = negb (Z.testbit b k).
Proof.
  intros Hk. destruct (Z.testbit b k) eqn:Hb; simpl.
  - apply Z.eqb_neq. intros H0.
    assert (Hbit : Z.testbit (Z.land b (2 ^ k)) k = true).
    { by rewrite Z.land_spec, Hb, Z.pow2_bits_true. }
    rewrite H0, Z.bits_0 in Hbit. done.
  - apply Z.eqb_eq. apply Z.bits_inj'. intros j Hj.
    rewrite Z.land_spec, Z.bits_0, Z.pow2_bits_eqb by done.
    destruct (Z.eqb_spec k j) as [->|]; [by rewrite Hb | apply andb_false_r].
Qed.

Lemma lor_pow2_testbit b k j :
  0 <= k → Z.testbit (Z.lor b (2 ^ k)) j = Z.testbit b j || (k =? j).
Proof. intros Hk. by rewrite Z.lor_spec, Z.pow2_bits_eqb. Qed.

Lemma lor_pow2_byte b k : 0 <= b < 256 → 0 <= k < 8 → 0 <= Z.lor b (2 ^ k) < 256.
Proof.
  intros Hb Hk.
  assert (Hmod : Z.lor b (2 ^ k) mod 2 ^ 8 = Z.lor b (2 ^ k)).
  { apply Z.bits_inj'. intros j Hj.
    rewrite Z.testbit_mod_pow2 by lia.
    destruct (Z.ltb_spec j 8); [done|]. simpl.
    rewrite lor_pow2_testbit by lia.
    destruct (Z.eqb_spec k j); [lia|].
    rewrite <- (Z.mod_small b (2 ^ 8)) by lia.
    rewrite Z.mod_pow2_bits_high by lia. done. }
  rewrite <- Hmod. apply Z.mod_pos_bound. lia.
Qed.

(** ** The bitmap *)

Lemma segment_at_Some sb i seg :
  segment_at sb i = Some seg → 0 <= i ∧ segments sb !! Z.to_nat i = Some seg.
Proof. unfold segment_at. destruct (Z.leb_spec 0 i); [done | discriminate]. Qed.

Lemma slice_get_Some s i b :
  slice_get s i = Some b → 0 <= i < slice_len s ∧ b = default 0 (slice_mem s !! i).
Proof.
  unfold slice_get.
  destruct (Z.leb_spec 0 i), (Z.ltb_spec i (slice_len s)); simpl; intros; simplify_eq; lia.
Qed.

Lemma slice_get_in_range s i :
  0 <= i < slice_len s → slice_get s i = Some (default 0 (slice_mem s !! i)).
Proof.
  intros Hi. unfold slice_get.
  destruct (Z.leb_spec 0 i), (Z.ltb_spec i (slice_len s)); simpl; try lia; done.
Qed.

Lemma slice_set_in_range s i v :
  0 <= i < slice_len s →
  slice_set s i v = Some {| slice_len := slice_len s; slice_mem := <[i := v]> (slice_mem s) |}.
Proof.
  intros Hi. unfold slice_set.
  destruct (Z.leb_spec 0 i), (Z.ltb_spec i (slice_len s)); simpl; try lia; done.
Qed.

Lemma wf_slice_byte s i b : wf_slice s → slice_get s i = Some b → 0 <= b < 256.
Proof.
  intros [_ Hmem] [_ ->]%slice_get_Some.
  destruct (slice_mem s !! i) as [v|] eqn:Hv; simpl; [by apply (Hmem i v) | lia].
Qed.

(** What a call does, read off the code: the byte it tests, the result, and
    the bitmap afterwards. *)
Lemma MarkIP_Some sb o r sb' :
  MarkIP sb o = Some (r, sb') →
  ∃ seg b,
    segment_at sb (segmentIndex o) = Some seg
    ∧ slice_get seg (byteIndex o) = Some b
    ∧ r = negb (Z.testbit b (bitOffset o))
    ∧ sb' = (if r
             then {| segments :=
                       <[Z.to_nat (segmentIndex o) :=
                           {| slice_len := slice_len seg;
                              slice_mem := <[byteIndex o := Z.lor b (2 ^ bitOffset o)]>
                                             (slice_mem seg) |}]> (segments sb) |}
             else sb).
Proof.
  unfold MarkIP. intros H.
  destruct (segment_at sb (segmentIndex o)) as [seg|]; simpl in H; [|done].
  destruct (slice_get seg (byteIndex o)) as [b|] eqn:Hb; simpl in H; [|done].
  pose proof (bitOffset_range o) as Hk.
  rewrite shl8_one, land_pow2_testbit in H by lia.
  exists seg, b. split; [done|]. split; [done|].
  destruct (Z.testbit b (bitOffset o)); simpl in H.
  - by simplify_eq.
  - rewrite slice_set_in_range in H by (by apply slice_get_Some in Hb as [? _]).
    simpl in H. by simplify_eq.
Qed.

(** On a bitmap of the right shape a call never panics. *)
Lemma MarkIP_total sb o :
  wf_bitmap sb → 0 <= o < 2 ^ 32 → ∃ r sb', MarkIP sb o = Some (r, sb').
Proof.
  intros [Hlen Hwf] Ho.
  pose proof (segmentIndex_range o Ho) as Hs.
  pose proof (byteIndex_range o) as Hb.
  pose proof (bitOffset_range o) as Hk.
  destruct (lookup_lt_is_Some_2 (segments sb) (Z.to_nat (segmentIndex o))) as [seg Hseg].
  { rewrite Hlen. lia. }
  assert (Hwfs : wf_slice seg) by (eapply Forall_lookup_1; eauto).
  unfold MarkIP, segment_at.
  destruct (Z.leb_spec 0 (segmentIndex o)); [|lia].
  rewrite Hseg. simpl.
  rewrite slice_get_in_range by (destruct Hwfs as [-> _]; lia). simpl.
  destruct (negb _); [eauto|].
  rewrite slice_set_in_range by (destruct Hwfs as [-> _]; lia). simpl. eauto.
Qed.

Lemma byte_at_insert_same sb s seg seg' i :
  segment_at sb s = Some seg →
  byte_at {| segments := <[Z.to_nat s := seg']> (segments sb) |} s i = slice_get seg' i.
Proof.
  intros [Hs Hseg]%segment_at_Some. unfold byte_at, segment_at. simpl.
  destruct (Z.leb_spec 0 s); [|lia].
  rewrite list_lookup_insert_eq by (by eapply lookup_lt_Some). done.
Qed.

Lemma byte_at_insert_other sb s seg seg' s' i :
  segment_at sb s = Some seg → s' ≠ s →
  byte_at {| segments := <[Z.to_nat s := seg']> (segments sb) |} s' i = byte_at sb s' i.
Proof.
  intros [Hs Hseg]%segment_at_Some Hne. unfold byte_at, segment_at. simpl.
  destruct (Z.leb_spec 0 s'); [|done].
  rewrite list_lookup_insert_ne by lia. done.
Qed.

Lemma slice_get_insert_same s i v :
  0 <= i < slice_len s →
  slice_get {| slice_len := slice_len s; slice_mem := <[i := v]> (slice_mem s) |} i = Some v.
Proof. intros Hi. rewrite slice_get_in_range by done. simpl. by rewrite lookup_insert_eq. Qed.

Lemma slice_get_insert_other s i v j :
  j ≠ i →
  slice_get {| slice_len := slice_len s; slice_mem := <[i := v]> (slice_mem s) |} j
  = slice_get s j.
Proof. intros Hne. unfold slice_get. simpl. by rewrite lookup_insert_ne. Qed.

(** The byte a call addresses, before and after. *)
Lemma MarkIP_target sb o r sb' :
  MarkIP sb o = Some (r, sb') →
  ∃ b, byte_at sb (segmentIndex o) (byteIndex o) = Some b
       ∧ r = negb (Z.testbit b (bitOffset o))
       ∧ byte_at sb' (segmentIndex o) (byteIndex o)
         = Some (if r then Z.lor b (2 ^ bitOffset o) else b).
Proof.
  intros (seg & b & Hseg & Hb & Hr & Hsb')%MarkIP_Some.
  exists b. assert (Hbyte : byte_at sb (segmentIndex o) (byteIndex o) = Some b).
  { unfold byte_at. by rewrite Hseg. }
  split; [done|]. split; [done|].
  destruct r; subst sb'; [|done].
  erewrite byte_at_insert_same by done.
  apply slice_get_insert_same. by apply slice_get_Some in Hb as [? _].
Qed.

(** Every other byte is left as it was. *)
Lemma MarkIP_other_bytes sb o r sb' s i :
  MarkIP sb o = Some (r, sb') →
  (s, i) ≠ (segmentIndex o, byteIndex o) →
  byte_at sb' s i = byte_at sb s i.
Proof.
  intros (seg & b & Hseg & Hb & Hr & Hsb')%MarkIP_Some Hne.
  destruct r; subst sb'; [|done].
  destruct (decide (s = segmentIndex o)) as [->|Hs].
  - erewrite byte_at_insert_same by done.
    rewrite slice_get_insert_other by congruence.
    unfold byte_at. by rewrite Hseg.
  - by erewrite byte_at_insert_other.
Qed.

Lemma MarkIP_lengths sb o r sb' :
  MarkIP sb o = Some (r, sb') →
  slice_len <$> segments sb' = slice_len <$> segments sb.
Proof.
  intros (seg & b & Hseg & Hb & Hr & Hsb')%MarkIP_Some.
  destruct r; subst sb'; [|done]. simpl.
  apply segment_at_Some in Hseg as [_ Hseg].
  rewrite list_fmap_insert. simpl.
  apply list_insert_id. by rewrite list_lookup_fmap, Hseg.
Qed.

Lemma MarkIP_wf sb o r sb' :
  wf_bitmap sb → MarkIP sb o = Some (r, sb') → wf_bitmap sb'.
Proof.
  intros [Hlen Hwf] (seg & b & Hseg & Hb & Hr & Hsb')%MarkIP_Some.
  destruct r; subst sb'; [|done].
  apply segment_at_Some in Hseg as [_ Hseg].
  assert (Hwfs : wf_slice seg) by (eapply Forall_lookup_1; eauto).
  split; simpl; [by rewrite length_insert|].
  apply Forall_insert; [done|]. destruct Hwfs as [Hl Hmem]. split; [done|]. simpl.
  apply map_Forall_insert_2; [|done].
  apply lor_pow2_byte; [|apply bitOffset_range].
  eapply wf_slice_byte; [split|]; done.
Qed.

(** In terms of the marks: a call reports whether the ordinal was unmarked,
    marks it, and leaves the mark of every other ordinal as it was. *)
Lemma MarkIP_result sb o r sb' :
  MarkIP sb o = Some (r, sb') → r = negb (marked sb o).
Proof. intros (b & Hb & Hr & _)%MarkIP_target. unfold marked. by rewrite Hb. Qed.

Lemma MarkIP_marks sb o r sb' :
  MarkIP sb o = Some (r, sb') → marked sb' o = true.
Proof.
  intros (b & Hb & Hr & Hb')%MarkIP_target. unfold marked. rewrite Hb'.
  pose proof (bitOffset_range o).
  destruct r.
  - rewrite lor_pow2_testbit, Z.eqb_refl by lia. apply orb_true_r.
  - by destruct (Z.testbit b (bitOffset o)).
Qed.

Lemma MarkIP_other_marks sb o r sb' o' :
  MarkIP sb o = Some (r, sb') → o' ≠ o → marked sb' o' = marked sb o'.
Proof.
  intros HM Hne. unfold marked.
  destruct (decide ((segmentIndex o', byteIndex o') = (segmentIndex o, byteIndex o)))
    as [Heq|Hplace].
  - injection Heq as Hs Hi. rewrite Hs, Hi.
    destruct (MarkIP_target _ _ _ _ HM) as (b & Hb & Hr & Hb'). rewrite Hb, Hb'.
    destruct r; [|done].
    rewrite lor_pow2_testbit by apply bitOffset_range.
    destruct (Z.eqb_spec (bitOffset o) (bitOffset o')) as [Hk|]; [|apply orb_false_r].
    destruct Hne. apply locate_inj. unfold locate. congruence.
  - by rewrite (MarkIP_other_bytes _ _ _ _ _ _ HM Hplace).
Qed.

Lemma NewSegmentedBitmap_wf : wf_bitmap NewSegmentedBitmap.
Proof.
  unfold wf_bitmap, NewSegmentedBitmap. cbn [segments].
  split; [apply length_replicate|].
  apply Forall_replicate. split; [done|]. apply map_Forall_empty.
Qed.

Lemma NewSegmentedBitmap_byte s i :
  0 <= s < BitmapSegments → 0 <= i < BytesPerSegment →
  byte_at NewSegmentedBitmap s i = Some 0.
Proof.
  intros Hs Hi. unfold byte_at, segment_at, NewSegmentedBitmap. cbn [segments].
  destruct (Z.leb_spec 0 s); [|lia].
  rewrite lookup_replicate_2 by lia. simpl.
  by rewrite slice_get_in_range.
Qed.

Lemma NewSegmentedBitmap_unmarked o : marked NewSegmentedBitmap o = false.
Proof.
  unfold marked.
  destruct (byte_at NewSegmentedBitmap (segmentIndex o) (byteIndex o)) as [b|] eqn:Hb;
    [|done].
  unfold byte_at, segment_at, NewSegmentedBitmap in Hb. cbn [segments] in Hb.
  destruct (0 <=? segmentIndex o); [|done].
  destruct (replicate _ _ !! _) as [seg|] eqn:Hseg; [|done].
  apply lookup_replicate in Hseg as [-> _]. simpl in Hb.
  apply slice_get_Some in Hb as [_ ->]. simpl. apply Z.bits_0.
Qed.

(** ** The marks as a set *)

Lemma NewSegmentedBitmap_tracks : tracks NewSegmentedBitmap ∅.
Proof.
  split; [apply NewSegmentedBitmap_wf|]. intros o.
  rewrite NewSegmentedBitmap_unmarked. set_solver.
Qed.

Lemma MarkIP_tracks sb seen o :
  tracks sb seen → 0 <= o < 2 ^ 32 →
  ∃ sb', MarkIP sb o = Some (bool_decide (o ∉ seen), sb') ∧ tracks sb' ({[o]} ∪ seen).
Proof.
  intros [Hwf Hseen] Ho.
  destruct (MarkIP_total sb o Hwf Ho) as (r & sb' & HM).
  exists sb'. split.
  - rewrite HM. do 2 f_equal. rewrite (MarkIP_result _ _ _ _ HM).
    specialize (Hseen o). destruct (marked sb o); simpl.
    + rewrite bool_decide_eq_false_2; [done|]. intros Hn. apply Hn. by apply Hseen.
    + rewrite bool_decide_eq_true_2; [done|]. intros Hn. by apply Hseen in Hn.
  - split; [by eapply MarkIP_wf|]. intros o'.
    destruct (decide (o' = o)) as [->|Hne].
    + rewrite (MarkIP_marks _ _ _ _ HM). set_solver.
    + rewrite (MarkIP_other_marks _ _ _ _ _ HM Hne), Hseen. set_solver.
Qed.

Lemma size_add_ordinal (seen : gset Z) o :
  Z.of_nat (size ({[o]} ∪ seen))
  = Z.of_nat (size seen) + (if bool_decide (o ∉ seen) then 1 else 0).
Proof.
  destruct (decide (o ∈ seen)) as [Hin|Hout].
  - rewrite bool_decide_eq_false_2 by (intros Hn; by apply Hn).
    replace ({[o]} ∪ seen) with seen by set_solver. lia.
  - rewrite bool_decide_eq_true_2 by done.
    rewrite size_union by set_solver. rewrite size_singleton. lia.
Qed.

Lemma size_list_to_set_remove_dups (l : list Z) :
  size (list_to_set l : gset Z) = length (remove_dups l).
Proof.
  rewrite <- (size_list_to_set (C := gset Z) (remove_dups l)) by apply NoDup_remove_dups.
  f_equal. apply set_eq. intros x.
  by rewrite !elem_of_list_to_set, elem_of_remove_dups.
Qed.

Lemma distinct_ordinals_size input :
  distinct_ordinals input = Z.of_nat (size (ordinals_of input)).
Proof. unfold distinct_ordinals, ordinals_of. by rewrite size_list_to_set_remove_dups. Qed.

Lemma nonempty_lines_app l1 l2 :
  nonempty_lines (l1 ++ l2) = nonempty_lines l1 ++ nonempty_lines l2.
Proof. apply filter_app. Qed.

Lemma ordinals_of_app l1 l2 : ordinals_of (l1 ++ l2) = ordinals_of l1 ∪ ordinals_of l2.
Proof.
  unfold ordinals_of. rewrite nonempty_lines_app, fmap_app.
  apply list_to_set_app_L.
Qed.

Lemma ordinals_of_perm l1 l2 : l1 ≡ₚ l2 → ordinals_of l1 = ordinals_of l2.
Proof. intros Hp. unfold ordinals_of, nonempty_lines. by rewrite Hp. Qed.

(** ** The sequence of calls *)

Lemma mark_all_tracks ordinals : ∀ sb seen,
  tracks sb seen → Forall (λ o, 0 <= o < 2 ^ 32) ordinals →
  ∃ rs sb',
    mark_all sb ordinals = Some (rs, sb')
    ∧ tracks sb' (list_to_set ordinals ∪ seen)
    ∧ (∀ i o, ordinals !! i = Some o →
              rs !! i = Some (bool_decide ((o ∉ seen) ∧ (o ∉ take i ordinals)))).
Proof.
  induction ordinals as [|o rest IH]; intros sb seen Ht Hr.
  - exists [], sb. split; [done|]. split; [|done].
    replace (list_to_set [] ∪ seen) with seen by set_solver. done.
  - apply Forall_cons in Hr as [Ho Hr].
    destruct (MarkIP_tracks sb seen o Ht Ho) as (sb1 & HM & Ht1).
    destruct (IH sb1 _ Ht1 Hr) as (rs & sb2 & Hall & Ht2 & Hrs).
    exists (bool_decide (o ∉ seen) :: rs), sb2. split; [|split].
    + simpl. rewrite HM. simpl. rewrite Hall. done.
    + replace (list_to_set (o :: rest) ∪ seen) with (list_to_set rest ∪ ({[o]} ∪ seen))
        by set_solver. done.
    + intros [|i] o' Hi; simpl in Hi.
      * simplify_eq. simpl. f_equal. apply bool_decide_ext. set_solver.
      * simpl. rewrite (Hrs i o' Hi). f_equal. apply bool_decide_ext. set_solver.
Qed.

(** ** The codec always yields an ordinal *)

Lemma u32_range z : 0 <= u32 z < 2 ^ 32.
Proof. apply Z.mod_pos_bound. lia. Qed.

Lemma ipToInt_loop_range segs : ∀ i result,
  0 <= result < 2 ^ 32 → 0 <= ipToInt_loop segs i result < 2 ^ 32.
Proof.
  induction segs as [|seg rest IH]; intros i result Hr; simpl; [done|].
  apply IH, u32_range.
Qed.

Lemma ipToInt_range ip : 0 <= ipToInt ip < 2 ^ 32.
Proof. apply ipToInt_loop_range. lia. Qed.

(** ** Batches *)

Lemma processBatch_loop_tracks batch : ∀ sb seen n,
  tracks sb seen →
  ∃ sb',
    processBatch_loop batch sb n
    = Some (n + Z.of_nat (size (ordinals_of batch ∪ seen)) - Z.of_nat (size seen), sb')
    ∧ tracks sb' (ordinals_of batch ∪ seen).
Proof.
  induction batch as [|ip rest IH]; intros sb seen n Ht.
  - exists sb. replace (ordinals_of [] ∪ seen) with seen by set_solver.
    split; [simpl; f_equal; f_equal; lia | done].
  - destruct ip as [|c ip].
    + replace (ordinals_of ([] :: rest)) with (ordinals_of rest) by done.
      apply IH, Ht.
    + set (o := ipToInt (c :: ip)).
      assert (Hords : ordinals_of ((c :: ip) :: rest) ∪ seen
                      = ordinals_of rest ∪ ({[o]} ∪ seen)).
      { unfold ordinals_of, nonempty_lines. rewrite filter_cons_True by done.
        rewrite fmap_cons, list_to_set_cons. fold o. set_solver. }
      destruct (MarkIP_tracks sb seen o Ht (ipToInt_range _)) as (sb1 & HM & Ht1).
      destruct (IH sb1 _ (if bool_decide (o ∉ seen) then n + 1 else n) Ht1)
        as (sb2 & Hloop & Ht2).
      exists sb2. rewrite Hords. split; [|done].
      cbn [processBatch_loop]. fold o. rewrite HM. simpl. rewrite Hloop.
      do 2 f_equal. rewrite (size_add_ordinal seen o).
      destruct (bool_decide (o ∉ seen)); lia.
Qed.

Lemma processBatch_tracks batch sb seen :
  tracks sb seen →
  ∃ sb',
    processBatch batch sb
    = Some (Z.of_nat (size (ordinals_of batch ∪ seen)) - Z.of_nat (size seen), None, sb')
    ∧ tracks sb' (ordinals_of batch ∪ seen).
Proof.
  intros Ht. destruct (processBatch_loop_tracks batch sb seen 0 Ht) as (sb' & Hl & Ht').
  exists sb'. split; [|done]. unfold processBatch. by rewrite Hl.
Qed.

Lemma fold_left_add_acc results : ∀ acc,
  fold_left Z.add results acc = acc + fold_left Z.add results 0.
Proof.
  induction results as [|y l IH]; intros acc; cbn [fold_left]; [lia|].
  rewrite (IH (acc + y)), (IH (0 + y)). lia.
Qed.

Lemma aggregate_cons x results : aggregate (x :: results) = x + aggregate results.
Proof. unfold aggregate. simpl. apply fold_left_add_acc. Qed.

Lemma worker_tracks batches : ∀ sb seen,
  tracks sb seen →
  ∃ results sb',
    worker batches sb = Some (results, sb')
    ∧ length results = length batches
    ∧ aggregate results
      = Z.of_nat (size (ordinals_of (concat batches) ∪ seen)) - Z.of_nat (size seen)
    ∧ tracks sb' (ordinals_of (concat batches) ∪ seen).
Proof.
  induction batches as [|batch rest IH]; intros sb seen Ht.
  - exists [], sb. replace (ordinals_of (concat []) ∪ seen) with seen by set_solver.
    split; [done|]. split; [done|]. split; [|done]. unfold aggregate. simpl. lia.
  - destruct (processBatch_tracks batch sb seen Ht) as (sb1 & Hp & Ht1).
    destruct (IH sb1 _ Ht1) as (results & sb2 & Hw & Hlen & Hsum & Ht2).
    assert (Hords : ordinals_of (concat (batch :: rest)) ∪ seen
                    = ordinals_of (concat rest) ∪ (ordinals_of batch ∪ seen)).
    { simpl. rewrite ordinals_of_app. set_solver. }
    eexists _, sb2. rewrite Hords. split; [|split; [|split; [|done]]].
    + simpl. rewrite Hp. simpl. rewrite Hw. simpl. done.
    + simpl. by rewrite Hlen.
    + rewrite aggregate_cons, Hsum. lia.
Qed.

Lemma run_pool_count batches :
  run_pool batches = Some (distinct_ordinals (concat batches), None).
Proof.
  destruct (worker_tracks batches _ _ NewSegmentedBitmap_tracks)
    as (results & sb' & Hw & _ & Hsum & _).
  unfold run_pool. rewrite Hw. simpl. rewrite Hsum, distinct_ordinals_size.
  replace (ordinals_of (concat batches) ∪ ∅) with (ordinals_of (concat batches))
    by set_solver.
  rewrite size_empty. do 2 f_equal. lia.
Qed.

(** The lengths of the segments never change. *)
Lemma processBatch_loop_lengths batch : ∀ sb n m sb',
  processBatch_loop batch sb n = Some (m, sb') →
  slice_len <$> segments sb' = slice_len <$> segments sb.
Proof.
  induction batch as [|ip rest IH]; intros sb n m sb' H; simpl in H.
  - by simplify_eq.
  - destruct ip as [|c ip]; [by eapply IH|].
    destruct (MarkIP sb (ipToInt (c :: ip))) as [[r sb1]|] eqn:HM; simpl in H; [|done].
    rewrite (IH _ _ _ _ H). by eapply MarkIP_lengths.
Qed.

Lemma worker_lengths batches : ∀ sb results sb',
  worker batches sb = Some (results, sb') →
  slice_len <$> segments sb' = slice_len <$> segments sb.
Proof.
  induction batches as [|batch rest IH]; intros sb results sb' H; simpl in H.
  - by simplify_eq.
  - unfold processBatch in H.
    destruct (processBatch_loop batch sb 0) as [[m sb1]|] eqn:Hl; simpl in H; [|done].
    destruct (worker rest sb1) as [[rs sb2]|] eqn:Hw; simpl in H; [|done].
    simplify_eq. rewrite (IH _ _ _ Hw). by eapply processBatch_loop_lengths.
Qed.

Lemma total_bytes_lengths sb :
  total_bytes sb = foldr Z.add 0 (slice_len <$> segments sb).
Proof.
  unfold total_bytes. generalize (segments sb) as l.
  induction l as [|s l IH]; [done|].
  rewrite fmap_cons. cbn [foldr]. by rewrite IH.
Qed.

(** ** The codec on decimal octets *)

Lemma Split_no_sep s sep : sep ∉ s → Split s sep = [s].
Proof.
  induction s as [|c s IH]; intros Hs; simpl; [done|].
  destruct (Z.eqb_spec c sep) as [->|Hc]; [set_solver|].
  rewrite IH by set_solver. done.
Qed.

Lemma Split_app_sep a rest sep :
  sep ∉ a → Split (a ++ sep :: rest) sep = a :: Split rest sep.
Proof.
  induction a as [|c a IH]; intros Hs; simpl.
  - by rewrite Z.eqb_refl.
  - destruct (Z.eqb_spec c sep) as [->|Hc]; [set_solver|].
    rewrite IH by set_solver. done.
Qed.

Lemma digits_no_dot s : forallb is_digit s = true → 46 ∉ s.
Proof.
  intros Hd Hin. apply list_elem_of_In in Hin.
  rewrite forallb_forall in Hd. specialize (Hd _ Hin). done.
Qed.

Lemma is_octet_spec s :
  is_octet s = true → s ≠ [] ∧ forallb is_digit s = true ∧ decimal s <= 255.
Proof.
  unfold is_octet. rewrite !andb_true_iff, negb_true_iff, bool_decide_eq_false.
  intros [[Hne Hd] Hv]. split; [done|]. split; [done|]. lia.
Qed.

Lemma Split_dotted a b c d :
  is_octet a = true → is_octet b = true → is_octet c = true → is_octet d = true →
  Split (dotted a b c d) 46 = [a; b; c; d].
Proof.
  intros (_ & Ha & _)%is_octet_spec (_ & Hb & _)%is_octet_spec
         (_ & Hc & _)%is_octet_spec (_ & Hd & _)%is_octet_spec.
  unfold dotted.
  rewrite !Split_app_sep by (by apply digits_no_dot).
  by rewrite Split_no_sep by (by apply digits_no_dot).
Qed.

Lemma digit_step_u32 v c : digit_step (u32 v) c = u32 (v * 10 + (c - 48)).
Proof.
  unfold digit_step, u32.
  rewrite Z.mul_mod_idemp_l by lia. by rewrite <- Z.add_mod by lia.
Qed.

Lemma fold_digit_step_u32 s : ∀ v,
  fold_left digit_step s (u32 v) = u32 (fold_left (λ v c, v * 10 + (c - 48)) s v).
Proof.
  induction s as [|c s IH]; intros v; simpl; [done|].
  by rewrite digit_step_u32, IH.
Qed.

(** The inner loop computes the decimal value modulo 2^32. *)
Lemma segment_value_decimal s : segment_value s = u32 (decimal s).
Proof. apply (fold_digit_step_u32 s 0). Qed.

Lemma decimal_digits_nonneg s : ∀ v,
  forallb is_digit s = true → 0 <= v → 0 <= fold_left (λ v c, v * 10 + (c - 48)) s v.
Proof.
  induction s as [|c s IH]; intros v Hd Hv; simpl; [done|].
  simpl in Hd. apply andb_true_iff in Hd as [Hc Hd].
  apply IH; [done|]. unfold is_digit in Hc. lia.
Qed.

Lemma segment_value_octet s :
  is_octet s = true → segment_value s = decimal s ∧ 0 <= decimal s <= 255.
Proof.
  intros (_ & Hd & Hv)%is_octet_spec.
  pose proof (decimal_digits_nonneg s 0 Hd ltac:(lia)) as H0. fold (decimal s) in H0.
  split; [|lia]. rewrite segment_value_decimal. apply Z.mod_small. lia.
Qed.

Lemma shl32_small v k :
  0 <= k < 32 → 0 <= v * 2 ^ k < 2 ^ 32 → shl32 v k = Z.shiftl v k.
Proof.
  intros Hk Hv. unfold shl32, u32. destruct (Z.ltb_spec k 32); [|lia].
  rewrite Z.shiftl_mul_pow2 by lia. by apply Z.mod_small.
Qed.

Lemma pack_octets v0 v1 v2 v3 :
  0 <= v0 <= 255 → 0 <= v1 <= 255 → 0 <= v2 <= 255 → 0 <= v3 <= 255 →
  ipToInt_loop_values v0 v1 v2 v3 = pack v0 v1 v2 v3.
Proof.
  intros H0 H1 H2 H3. unfold ipToInt_loop_values, pack.
  replace (shift_count 0) with 24 by done.
  replace (shift_count (0 + 1)) with 16 by done.
  replace (shift_count (0 + 1 + 1)) with 8 by done.
  replace (shift_count (0 + 1 + 1 + 1)) with 0 by done.
  rewrite !shl32_small by lia.
  rewrite !Z.shiftl_mul_pow2 by lia. unfold u32.
  rewrite (Z.mod_small (0 + v0 * 2 ^ 24)) by lia.
  rewrite (Z.mod_small (0 + v0 * 2 ^ 24 + v1 * 2 ^ 16)) by lia.
  rewrite (Z.mod_small (0 + v0 * 2 ^ 24 + v1 * 2 ^ 16 + v2 * 2 ^ 8)) by lia.
  rewrite Z.mod_small by lia. lia.
Qed.

Lemma well_formed_Split ip :
  well_formed ip →
  ∃ a b c d, Split ip 46 = [a; b; c; d] ∧ is_octet a = true ∧ is_octet b = true
             ∧ is_octet c = true ∧ is_octet d = true.
Proof.
  intros (a & b & c & d & -> & Ha & Hb & Hc & Hd).
  exists a, b, c, d. split; [by apply Split_dotted | done].
Qed.

(** ** Lines of a stream *)

Lemma Split_nonempty s sep : Split s sep ≠ [].
Proof.
  destruct s as [|c s]; simpl; [done|].
  destruct (c =? sep); [done|]. by destruct (Split s sep).
Qed.

(** [break_at] on a newline and [Split] on a newline agree. *)
Lemma Split_break s :
  match break_at 10 s with
  | None => Split s 10 = [s]
  | Some (line, rest) =>
      ∃ l, line = l ++ [10] ∧ Split s 10 = l :: Split rest 10
           ∧ (length rest < length s)%nat
  end.
Proof.
  induction s as [|c s IH]; simpl; [done|].
  destruct (Z.eqb_spec c 10) as [->|Hc].
  - exists []. split; [done|]. split; [done|]. lia.
  - destruct (break_at 10 s) as [[line rest]|]; simpl.
    + destruct IH as (l & -> & HS & Hlen). exists (c :: l).
      split; [done|]. split; [by rewrite HS | lia].
    + by rewrite IH.
Qed.

Lemma terminated_lines_cases s :
  match break_at 10 s with
  | None => terminated_lines s = [] ∧ unterminated_line s = s
  | Some (line, rest) =>
      terminated_lines s = TrimSpace line :: terminated_lines rest
      ∧ unterminated_line s = unterminated_line rest
      ∧ (length rest < length s)%nat
  end.
Proof.
  pose proof (Split_break s) as H. unfold terminated_lines, unterminated_line.
  destruct (break_at 10 s) as [[line rest]|].
  - destruct H as (l & -> & -> & Hlen).
    pose proof (Split_nonempty rest 10) as Hne.
    destruct (Split rest 10) as [|w ws] eqn:HS; [done|].
    split; [done|]. split; [done|]. done.
  - by rewrite H.
Qed.

(** ** readBatch *)

Lemma ReadString_line r line rest :
  break_at 10 (pending r) = Some (line, rest) →
  ReadString r 10 = (line, None, {| pending := rest; tail_err := tail_err r |}).
Proof. intros H. unfold ReadString. by rewrite H. Qed.

Lemma ReadString_end r :
  break_at 10 (pending r) = None →
  ReadString r 10
  = (pending r, Some (tail_err r), {| pending := []; tail_err := tail_err r |}).
Proof. intros H. unfold ReadString. by rewrite H. Qed.

(** The loop either fills the batch from the terminated lines, or reaches the
    end of the stream: there it returns what it has only when the stream
    ended normally and it has something. *)
Lemma readBatch_loop_spec todo : ∀ batch r,
  let ls := terminated_lines (pending r) in
  ∃ r',
    tail_err r' = tail_err r
    ∧ if decide (todo ≤ length ls)%nat
      then readBatch_loop todo batch r = (batch ++ take todo ls, None, r')
           ∧ terminated_lines (pending r') = drop todo ls
           ∧ (length (pending r') + todo ≤ length (pending r))%nat
      else readBatch_loop todo batch r
           = (if is_EOF (tail_err r) && (0 <? Z.of_nat (length (batch ++ ls)))
              then (batch ++ ls, None, r')
              else ([], Some (tail_err r), r'))
           ∧ pending r' = [].
Proof.
  induction todo as [|todo IH]; intros batch r ls.
  - exists r. split; [done|]. rewrite decide_True by lia.
    simpl. rewrite app_nil_r, drop_0. split; [done|]. split; [done|]. lia.
  - pose proof (terminated_lines_cases (pending r)) as Hc. cbn [readBatch_loop].
    destruct (break_at 10 (pending r)) as [[line rest]|] eqn:Hb.
    + destruct Hc as (Hls & _ & Hlen). rewrite (ReadString_line _ _ _ Hb).
      destruct (IH (batch ++ [TrimSpace line])
                  {| pending := rest; tail_err := tail_err r |}) as (r' & He & Hr').
      cbn [pending tail_err] in Hr', He. exists r'. split; [done|].
      subst ls. rewrite Hls. cbn [length].
      destruct (decide (todo ≤ length (terminated_lines rest))%nat) as [Hle|Hgt].
      * rewrite decide_True by lia. destruct Hr' as (-> & -> & Hm).
        rewrite <- app_assoc. split; [done|]. split; [done|]. lia.
      * rewrite decide_False by lia. destruct Hr' as (-> & ->).
        rewrite <- !app_assoc. done.
    + destruct Hc as (Hls & _). rewrite (ReadString_end _ Hb).
      exists {| pending := []; tail_err := tail_err r |}. split; [done|].
      subst ls. rewrite Hls. rewrite decide_False by (simpl; lia).
      rewrite app_nil_r. split; [|done].
      by destruct (is_EOF (tail_err r) && (0 <? Z.of_nat (length batch))).
Qed.

(** ** The producer *)

Lemma full_batches_step B ls :
  (0 < B ≤ length ls)%nat →
  take B ls ++ full_batches B (drop B ls) = full_batches B ls.
Proof.
  intros HB. unfold full_batches. rewrite take_take_drop, length_drop. f_equal.
  replace (length ls) with ((length ls - B) + 1 * B)%nat at 2 by lia.
  rewrite Nat.div_add by lia. lia.
Qed.

Lemma full_batches_short B ls : (length ls < B)%nat → full_batches B ls = [].
Proof.
  intros HB. unfold full_batches. rewrite Nat.div_small by done.
  by rewrite Nat.mul_0_r.
Qed.

(** With a positive batch size the producer ends, and the lines it passes on
    are: all the terminated lines when the stream ends normally, the full
    batches of them when it fails. *)
Lemma producer_loop_spec B :
  (0 < B)%nat → ∀ fuel r,
  (length (pending r) < fuel)%nat →
  ∃ batches,
    producer_loop fuel B r = Some batches
    ∧ concat batches
      = (if is_EOF (tail_err r) then terminated_lines (pending r)
         else full_batches B (terminated_lines (pending r)))
    ∧ Forall (λ b, b ≠ [] ∧ (length b ≤ B)%nat) batches.
Proof.
  intros HB. induction fuel as [|fuel IH]; intros r Hfuel; [lia|].
  cbn [producer_loop]. unfold readBatch_of.
  destruct (readBatch_loop_spec B [] r) as (r' & He & Hr').
  set (ls := terminated_lines (pending r)) in *.
  destruct (decide (B ≤ length ls)%nat) as [Hle|Hgt].
  - destruct Hr' as (-> & Hls' & Hm). cbn [app].
    destruct (IH r' ltac:(lia)) as (batches & -> & Hcat & Hall).
    exists (take B ls :: batches). split; [done|]. rewrite He, Hls' in Hcat. split.
    + cbn [concat]. rewrite Hcat. destruct (is_EOF (tail_err r)).
      * apply take_drop.
      * apply full_batches_step. lia.
    + apply Forall_cons. split; [|done]. split.
      * intros Hnil. apply (f_equal length) in Hnil.
        rewrite length_take in Hnil. simpl in Hnil. lia.
      * rewrite length_take. lia.
  - destruct Hr' as (-> & Hp'). cbn [app].
    destruct (is_EOF (tail_err r)) eqn:Heof; cbn [andb].
    + destruct (Z.ltb_spec 0 (Z.of_nat (length ls))) as [Hpos|Hzero].
      * assert (length (pending r) ≠ 0)%nat as Hnz.
        { intros Hz. apply length_zero_iff_nil in Hz.
          subst ls. rewrite Hz in Hpos. simpl in Hpos. lia. }
        destruct (IH r' ltac:(rewrite Hp'; simpl; lia)) as (batches & -> & Hcat & Hall).
        exists (ls :: batches). split; [done|].
        rewrite He, Heof, Hp' in Hcat. split.
        -- cbn [concat]. rewrite Hcat. apply app_nil_r.
        -- apply Forall_cons. split; [|done]. split; [|lia].
           intros Hnil. rewrite Hnil in Hpos. simpl in Hpos. lia.
      * exists []. split; [done|]. split; [|done].
        destruct ls; [done | simpl in Hzero; lia].
    + exists []. split; [done|]. split; [|done].
      cbn [concat]. symmetry. apply full_batches_short. lia.
Qed.

Lemma producer_spec B r :
  (0 < B)%nat →
  ∃ batches,
    producer B r = Some batches
    ∧ concat batches
      = (if is_EOF (tail_err r) then terminated_lines (pending r)
         else full_batches B (terminated_lines (pending r)))
    ∧ Forall (λ b, b ≠ [] ∧ (length b ≤ B)%nat) batches.
Proof. intros HB. apply producer_loop_spec; [done | lia]. Qed.

Lemma concat_perm (l1 l2 : list (list gostring)) :
  l1 ≡ₚ l2 → concat l1 ≡ₚ concat l2.
Proof.
  induction 1 as [|x l l' _ IH|x y l|l l' l'' _ IH1 _ IH2]; simpl.
  - done.
  - by rewrite IH.
  - rewrite !app_assoc. by rewrite (Permutation_app_comm y x).
  - by etrans.
Qed.

Lemma distinct_ordinals_perm l1 l2 :
  l1 ≡ₚ l2 → distinct_ordinals l1 = distinct_ordinals l2.
Proof. intros Hp. by rewrite !distinct_ordinals_size, (ordinals_of_perm _ _ Hp). Qed.

Lemma BatchSize_pos : (0 < Z.to_nat BatchSize)%nat.
Proof. unfold BatchSize. lia. Qed.

(** ** Interleaved executions of the pool *)

Lemma held_counts_app ws1 ws2 :
  held_counts (ws1 ++ ws2) = held_counts ws1 + held_counts ws2.
Proof.
  unfold held_counts. induction ws1 as [|w ws1 IH]; cbn [app foldr]; [lia|].
  rewrite IH. lia.
Qed.

Lemma held_lines_app ws1 ws2 : held_lines (ws1 ++ ws2) = held_lines ws1 ++ held_lines ws2.
Proof. unfold held_lines. by rewrite fmap_app, concat_app. Qed.

Lemma held_lines_cons w ws : held_lines (w :: ws) = lines_left w ++ held_lines ws.
Proof. done. Qed.

Lemma aggregate_snoc rs n : aggregate (rs ++ [n]) = aggregate rs + n.
Proof. unfold aggregate. by rewrite fold_left_app. Qed.

Lemma ordinals_of_nil : ordinals_of [] = ∅.
Proof. done. Qed.

Lemma ordinals_of_cons_empty rest : ordinals_of ([] :: rest) = ordinals_of rest.
Proof. done. Qed.

Lemma ordinals_of_cons ip rest :
  ip ≠ [] → ordinals_of (ip :: rest) = {[ipToInt ip]} ∪ ordinals_of rest.
Proof.
  intros Hne. unfold ordinals_of, nonempty_lines.
  rewrite filter_cons_True by done. by rewrite fmap_cons, list_to_set_cons.
Qed.

Lemma pool_start_invariant batches : pool_invariant batches (pool_start batches).
Proof.
  exists ∅. split; [apply NewSegmentedBitmap_tracks|]. split; [done|].
  cbn. replace (ordinals_of []) with (∅ : gset Z) by done. set_solver.
Qed.

Lemma pool_step_invariant batches p p' :
  pool_invariant batches p → pool_step p p' → pool_invariant batches p'.
Proof.
  intros (seen & Ht & Hsum & Hall) Hstep.
  destruct Hstep as [batch q ws sb rs Hw | ws1 rest n ws2 q sb rs
                    | ws1 ip rest n ws2 q sb rs fresh sb' Hip HM | ws1 n ws2 q sb rs];
    unfold pool_invariant; cbn [shared resultChan busy batchChan] in *.
  - exists seen. split; [done|]. split.
    + rewrite held_counts_app. unfold held_counts at 2. cbn. lia.
    + rewrite <- Hall. rewrite held_lines_app, !ordinals_of_app.
      cbn [concat]. rewrite ordinals_of_app. unfold held_lines at 2. cbn.
      rewrite app_nil_r. set_solver.
  - exists seen. split; [done|]. split.
    + rewrite held_counts_app in *. done.
    + rewrite <- Hall. rewrite !held_lines_app, !held_lines_cons, !ordinals_of_app.
      cbn [lines_left]. by rewrite ordinals_of_cons_empty.
  - destruct (MarkIP_tracks sb seen (ipToInt ip) Ht (ipToInt_range ip))
      as (sb1 & HM1 & Ht1).
    rewrite HM in HM1. injection HM1 as -> <-.
    exists ({[ipToInt ip]} ∪ seen). split; [done|]. split.
    + rewrite held_counts_app in *. unfold held_counts in *. cbn [foldr count] in *.
      rewrite size_add_ordinal. destruct (bool_decide (ipToInt ip ∉ seen)); lia.
    + rewrite <- Hall. rewrite !held_lines_app, !held_lines_cons, !ordinals_of_app.
      cbn [lines_left]. rewrite (ordinals_of_cons ip rest Hip). set_solver.
  - exists seen. split; [done|]. split.
    + rewrite aggregate_snoc. rewrite !held_counts_app in *.
      unfold held_counts in *. cbn [foldr count] in *. lia.
    + rewrite <- Hall. rewrite !held_lines_app, !held_lines_cons, !ordinals_of_app.
      cbn [lines_left]. rewrite ordinals_of_nil. set_solver.
Qed.

Lemma pool_reachable_invariant batches p :
  rtc pool_step (pool_start batches) p → pool_invariant batches p.
Proof.
  intros Hrun.
  eapply (rtc_ind_r (pool_invariant batches)); [apply pool_start_invariant | | exact Hrun].
  intros y z _ Hstep IH. by eapply pool_step_invariant.
Qed.

(** However the workers interleave, once every batch is received and every
    worker has sent its result, the results sum to the number of distinct
    ordinals of the non-empty lines. *)
Lemma pool_final_count batches p :
  rtc pool_step (pool_start batches) p → pool_done p →
  aggregate (resultChan p) = distinct_ordinals (concat batches).
Proof.
  intros (seen & _ & Hsum & Hall)%pool_reachable_invariant [Hq Hb].
  rewrite Hq, Hb in *. cbn in Hsum, Hall.
  rewrite distinct_ordinals_size, <- Hall.
  replace (seen ∪ ordinals_of [] ∪ ordinals_of []) with seen
    by (replace (ordinals_of []) with (∅ : gset Z) by done; set_solver).
  lia.
Qed.

(** A pool that is not done can take a step: no call panics, nothing blocks. *)
Lemma pool_progress batches p :
  rtc pool_step (pool_start batches) p → ¬ pool_done p → ∃ p', pool_step p p'.
Proof.
  intros (seen & [Hwf _] & _)%pool_reachable_invariant Hnd.
  destruct p as [q ws sb rs]. cbn [shared] in Hwf.
  destruct ws as [|[ls n] ws].
  - destruct q as [|batch q]; [by destruct Hnd|].
    eexists. apply step_receive. unfold WorkerCount. simpl. lia.
  - destruct ls as [|ip rest].
    + eexists. apply (step_send [] n ws).
    + destruct ip as [|c ip].
      * eexists. apply (step_skip [] rest n ws).
      * destruct (MarkIP_total sb (ipToInt (c :: ip)) Hwf (ipToInt_range _))
          as (fresh & sb' & HM).
        eexists. by apply (step_mark [] (c :: ip) rest n ws q sb rs fresh sb').
Qed.

Lemma busy_measure_app ws1 ws2 :
  foldr (λ w acc, length (lines_left w) + 1 + acc)%nat 0%nat (ws1 ++ ws2)
  = (foldr (λ w acc, length (lines_left w) + 1 + acc)%nat 0%nat ws1
     + foldr (λ w acc, length (lines_left w) + 1 + acc)%nat 0%nat ws2)%nat.
Proof. induction ws1 as [|w ws1 IH]; cbn [app foldr]; [done|]. rewrite IH. lia. Qed.

(** Every step uses up the measure: executions are finite. *)
Lemma pool_step_measure p p' : pool_step p p' → (pool_measure p' < pool_measure p)%nat.
Proof.
  intros Hstep. unfold pool_measure.
  destruct Hstep; cbn [busy batchChan]; rewrite !busy_measure_app;
    cbn [foldr lines_left length]; lia.
Qed.

(** ** countUniqueIPs *)

Lemma countUniqueIPs_of_lines B r :
  (0 < B)%nat →
  countUniqueIPs_of B (inr r)
  = Some (distinct_ordinals
            (if is_EOF (tail_err r) then terminated_lines (pending r)
             else full_batches B (terminated_lines (pending r))),
          None).
Proof.
  intros HB. destruct (producer_spec B r HB) as (batches & Hprod & Hcat & _).
  unfold countUniqueIPs_of. rewrite Hprod. simpl. by rewrite run_pool_count, Hcat.
Qed.

(** On a stream that ends normally the count is that of the lines that end
    in a newline; what follows the last newline is not counted. *)
Lemma countUniqueIPs_normal_end r :
  tail_err r = EOF →
  countUniqueIPs (inr r)
  = Some (distinct_ordinals (terminated_lines (pending r)), None).
Proof.
  intros He. unfold countUniqueIPs.
  rewrite (countUniqueIPs_of_lines _ r BatchSize_pos). by rewrite He.
Qed.

Lemma countUniqueIPs_open_failure e :
  countUniqueIPs (inl e) = Some (0, Some (Wrapped "failed to open file: " e)).
Proof. done. Qed.

(** The end-to-end scenario with batches of two lines. *)
Example countUniqueIPs_scenario :
  countUniqueIPs_of 2
    (inr {| pending := text [str "10.0.0.1"; str "10.0.0.1"; str "10.0.0.2"; [];
                             str "10.0.0.1"] [];
            tail_err := EOF |})
  = Some (2, None).
Proof. by vm_compute. Qed.

(** Three lines and then a failure, with batches of two: the third line is
    read and dropped. *)
Example countUniqueIPs_of_failure :
  countUniqueIPs_of 2
    (inr {| pending := text [str "10.0.0.1"; str "10.0.0.2"; str "10.0.0.3"] [];
            tail_err := Errno 5 |})
  = Some (2, None).
Proof. by vm_compute. Qed.

(** ** Distinct addresses have distinct ordinals *)

Lemma decimal_acc_ge s : ∀ v,
  forallb is_digit s = true → 0 <= v → v <= fold_left (λ v c, v * 10 + (c - 48)) s v.
Proof.
  induction s as [|c s IH]; intros v Hd Hv; simpl; [lia|].
  simpl in Hd. apply andb_true_iff in Hd as [Hc Hd]. unfold is_digit in Hc.
  etrans; [|apply IH]; [lia | done | lia].
Qed.

Lemma canonical_octet_spec s :
  canonical_octet s = true →
  is_octet s = true ∧ (s = [48] ∨ ∃ c s', s = c :: s' ∧ c ≠ 48).
Proof.
  unfold canonical_octet. rewrite andb_true_iff, orb_true_iff.
  intros [Ho Hc]. split; [done|].
  destruct Hc as [Hz|Hh].
  - left. by apply bool_decide_eq_true in Hz.
  - right. apply negb_true_iff, bool_decide_eq_false in Hh.
    apply is_octet_spec in Ho as (Hne & _). destruct s as [|c s']; [done|].
    exists c, s'. split; [done|]. intros ->. by apply Hh.
Qed.

(** An octet in its usual writing has one to three digits. *)
Lemma canonical_octet_digits s :
  canonical_octet s = true →
  (∃ x, s = [x] ∧ 48 <= x <= 57)
  ∨ (∃ x y, s = [x; y] ∧ 49 <= x <= 57 ∧ 48 <= y <= 57)
  ∨ (∃ x y z, s = [x; y; z] ∧ 49 <= x <= 57 ∧ 48 <= y <= 57 ∧ 48 <= z <= 57).
Proof.
  intros [Ho Hc]%canonical_octet_spec.
  apply is_octet_spec in Ho as (_ & Hd & Hv).
  destruct Hc as [->|(x & s' & -> & Hx)]; [left; exists 48; split; [done|lia]|].
  simpl in Hd. apply andb_true_iff in Hd as [Hx' Hd]. unfold is_digit in Hx'.
  destruct s' as [|y s']; [left; exists x; split; [done|lia]|].
  simpl in Hd. apply andb_true_iff in Hd as [Hy Hd]. unfold is_digit in Hy.
  destruct s' as [|z s']; [right; left; exists x, y; split; [done|lia]|].
  simpl in Hd. apply andb_true_iff in Hd as [Hz Hd]. unfold is_digit in Hz.
  destruct s' as [|w s']; [right; right; exists x, y, z; split; [done|lia]|].
  simpl in Hd. apply andb_true_iff in Hd as [Hw Hd]. unfold is_digit in Hw.
  exfalso. unfold decimal in Hv. cbn [fold_left] in Hv.
  pose proof (decimal_acc_ge s'
                ((((0 * 10 + (x - 48)) * 10 + (y - 48)) * 10 + (z - 48)) * 10 + (w - 48))
                Hd ltac:(lia)).
  lia.
Qed.

Lemma canonical_octet_inj a a' :
  canonical_octet a = true → canonical_octet a' = true →
  decimal a = decimal a' → a = a'.
Proof.
  intros Ha Ha' Hv.
  destruct (canonical_octet_digits a Ha)
    as [(x & -> & ?)|[(x & y & -> & ? & ?)|(x & y & z & -> & ? & ? & ?)]];
  destruct (canonical_octet_digits a' Ha')
    as [(x' & -> & ?)|[(x' & y' & -> & ? & ?)|(x' & y' & z' & -> & ? & ? & ?)]];
  unfold decimal in Hv; cbn [fold_left] in Hv;
  first [ exfalso; lia | repeat f_equal; lia ].
Qed.

Lemma pack_inj v0 v1 v2 v3 w0 w1 w2 w3 :
  0 <= v0 <= 255 → 0 <= v1 <= 255 → 0 <= v2 <= 255 → 0 <= v3 <= 255 →
  0 <= w0 <= 255 → 0 <= w1 <= 255 → 0 <= w2 <= 255 → 0 <= w3 <= 255 →
  pack v0 v1 v2 v3 = pack w0 w1 w2 w3 → v0 = w0 ∧ v1 = w1 ∧ v2 = w2 ∧ v3 = w3.
Proof. unfold pack. rewrite !Z.shiftl_mul_pow2 by lia. lia. Qed.

Lemma ipToInt_dotted a b c d :
  is_octet a = true → is_octet b = true → is_octet c = true → is_octet d = true →
  ipToInt (dotted a b c d) = pack (decimal a) (decimal b) (decimal c) (decimal d).
Proof.
  intros Ha Hb Hc Hd.
  unfold ipToInt. rewrite Split_dotted by done.
  destruct (segment_value_octet a Ha) as [Ea Ra], (segment_value_octet b Hb) as [Eb Rb],
    (segment_value_octet c Hc) as [Ec Rc], (segment_value_octet d Hd) as [Ed Rd].
  rewrite <- (pack_octets _ _ _ _ Ra Rb Rc Rd).
  cbn [ipToInt_loop]. unfold ipToInt_loop_values. by rewrite Ea, Eb, Ec, Ed.
Qed.

(** On dotted quads in their usual writing the codec is injective. *)
Lemma ipToInt_canonical_inj ip ip' :
  canonical ip → canonical ip' → ipToInt ip = ipToInt ip' → ip = ip'.
Proof.
  intros (a & b & c & d & -> & Ha & Hb & Hc & Hd)
         (a' & b' & c' & d' & -> & Ha' & Hb' & Hc' & Hd') Heq.
  pose proof (proj1 (canonical_octet_spec _ Ha)) as Oa.
  pose proof (proj1 (canonical_octet_spec _ Hb)) as Ob.
  pose proof (proj1 (canonical_octet_spec _ Hc)) as Oc.
  pose proof (proj1 (canonical_octet_spec _ Hd)) as Od.
  pose proof (proj1 (canonical_octet_spec _ Ha')) as Oa'.
  pose proof (proj1 (canonical_octet_spec _ Hb')) as Ob'.
  pose proof (proj1 (canonical_octet_spec _ Hc')) as Oc'.
  pose proof (proj1 (canonical_octet_spec _ Hd')) as Od'.
  rewrite !ipToInt_dotted in Heq by done.
  apply pack_inj in Heq as (Ea & Eb & Ec & Ed);
    try (by apply segment_value_octet).
  by rewrite (canonical_octet_inj _ _ Ha Ha' Ea), (canonical_octet_inj _ _ Hb Hb' Eb),
    (canonical_octet_inj _ _ Hc Hc' Ec), (canonical_octet_inj _ _ Hd Hd' Ed).
Qed.

Lemma remove_dups_fmap_length (f : gostring → Z) (l : list gostring) :
  (∀ x y, x ∈ l → y ∈ l → f x = f y → x = y) →
  length (remove_dups (f <$> l)) = length (remove_dups l).
Proof.
  induction l as [|x l IH]; intros Hinj; [done|].
  assert (IH' : length (remove_dups (f <$> l)) = length (remove_dups l)).
  { apply IH. intros y z Hy Hz. apply Hinj; by right. }
  rewrite fmap_cons. cbn [remove_dups].
  destruct (decide_rel elem_of x l) as [Hin|Hout];
    destruct (decide_rel elem_of (f x) (f <$> l)) as [Hfin|Hfout].
  - done.
  - destruct Hfout. by apply list_elem_of_fmap_2.
  - apply list_elem_of_fmap in Hfin as (y & Hfy & Hy).
    destruct Hout. rewrite (Hinj x y); [done|by left|by right|done].
  - cbn [length]. by rewrite IH'.
Qed.

(** When the non-empty lines are dotted quads in their usual writing, the
    distinct ordinals are as many as the distinct lines. *)
Lemma distinct_ordinals_canonical input :
  Forall canonical (nonempty_lines input) →
  distinct_ordinals input = Z.of_nat (length (remove_dups (nonempty_lines input))).
Proof.
  intros Hc. unfold distinct_ordinals. f_equal.
  apply remove_dups_fmap_length. intros x y Hx Hy.
  rewrite Forall_forall in Hc. apply ipToInt_canonical_inj; by apply Hc.
Qed.

(** * The claims *)

(** C2.  On a freshly created bitmap, in any sequence of [MarkIP] calls on
    ordinals of [0, 2^32), a call returns true exactly when no earlier call
    of the sequence was for the same ordinal: the first call for an ordinal
    returns true and every later call for it returns false.  No call panics. *)
Theorem MarkIP_first_call_only (calls : list Z) :
  Forall (λ o, 0 <= o < 2 ^ 32) calls →
  ∃ rs sb',
    mark_all NewSegmentedBitmap calls = Some (rs, sb')
    ∧ (∀ i o, calls !! i = Some o → rs !! i = Some (bool_decide (o ∉ take i calls))).
Proof.
  intros Hr.
  destruct (mark_all_tracks calls _ _ NewSegmentedBitmap_tracks Hr)
    as (rs & sb' & Hall & _ & Hrs).
  exists rs, sb'. split; [done|]. intros i o Hi.
  rewrite (Hrs i o Hi). f_equal. apply bool_decide_ext. set_solver.
Qed.

Lemma MarkIP_first_call_only_witness :
  Forall (λ o, 0 <= o < 2 ^ 32) [3232235521; 7; 3232235521; 4294967295; 7]
  ∧ ∃ rs sb',
      mark_all NewSegmentedBitmap [3232235521; 7; 3232235521; 4294967295; 7]
      = Some (rs, sb')
      ∧ (∀ i o, [3232235521; 7; 3232235521; 4294967295; 7] !! i = Some o →
                rs !! i
                = Some (bool_decide
                          (o ∉ take i [3232235521; 7; 3232235521; 4294967295; 7]))).
Proof.
  assert (Forall (λ o, 0 <= o < 2 ^ 32) [3232235521; 7; 3232235521; 4294967295; 7])
    as Hr by (repeat constructor; lia).
  split; [exact Hr | exact (MarkIP_first_call_only _ Hr)].
Defined.

(** C3.  For an input and any list of batches whose lines are, up to order,
    those of the input (any partition, in any order): processed one after the
    other against one fresh bitmap, every batch yields a count and the counts
    sum to the number of distinct ordinals of the non-empty lines of the
    input; and so do the results of every completed execution of the pool,
    however the [MarkIP] calls of the workers interleave. *)
Theorem order_independence (input : list gostring) (batches : list (list gostring)) :
  concat batches ≡ₚ input →
  (∃ results sb',
     worker batches NewSegmentedBitmap = Some (results, sb')
     ∧ length results = length batches
     ∧ aggregate results = distinct_ordinals input)
  ∧ (∀ p, rtc pool_step (pool_start batches) p → pool_done p →
          aggregate (resultChan p) = distinct_ordinals input).
Proof.
  intros Hp. split.
  - destruct (worker_tracks batches _ _ NewSegmentedBitmap_tracks)
      as (results & sb' & Hw & Hlen & Hsum & _).
    exists results, sb'. split; [done|]. split; [done|].
    rewrite Hsum, distinct_ordinals_size, <- (ordinals_of_perm _ _ Hp), size_empty.
    replace (ordinals_of (concat batches) ∪ ∅) with (ordinals_of (concat batches))
      by set_solver.
    lia.
  - intros p Hrun Hdone.
    rewrite (pool_final_count _ _ Hrun Hdone). by apply distinct_ordinals_perm.
Qed.

Lemma order_independence_witness :
  concat [[str "10.0.0.2"; []]; [str "10.0.0.1"]; [str "10.0.0.1"; str "10.0.0.1"]]
  ≡ₚ [str "10.0.0.1"; str "10.0.0.1"; str "10.0.0.2"; []; str "10.0.0.1"]
  ∧ (∃ results sb',
       worker [[str "10.0.0.2"; []]; [str "10.0.0.1"]; [str "10.0.0.1"; str "10.0.0.1"]]
         NewSegmentedBitmap = Some (results, sb')
       ∧ length results = 3%nat
       ∧ aggregate results
         = distinct_ordinals
             [str "10.0.0.1"; str "10.0.0.1"; str "10.0.0.2"; []; str "10.0.0.1"])
  ∧ (∀ p,
       rtc pool_step
         (pool_start
            [[str "10.0.0.2"; []]; [str "10.0.0.1"]; [str "10.0.0.1"; str "10.0.0.1"]]) p →
       pool_done p →
       aggregate (resultChan p)
       = distinct_ordinals
           [str "10.0.0.1"; str "10.0.0.1"; str "10.0.0.2"; []; str "10.0.0.1"]).
Proof.
  assert (concat [[str "10.0.0.2"; []]; [str "10.0.0.1"];
                  [str "10.0.0.1"; str "10.0.0.1"]]
          ≡ₚ [str "10.0.0.1"; str "10.0.0.1"; str "10.0.0.2"; []; str "10.0.0.1"])
    as Hp by (apply (bool_decide_unpack _); vm_compute; exact I).
  split; [exact Hp | exact (order_independence _ _ Hp)].
Defined.

(** C5.  With 256 segments the index computation of [MarkIP] sends every
    ordinal of [0, 2^32) to a triple within bounds, distinct ordinals to
    distinct triples, and every triple within bounds is that of an ordinal;
    segment [k] holds exactly the ordinals of [k * 2^24, (k + 1) * 2^24). *)
Theorem segment_coverage :
  (∀ o, 0 <= o < 2 ^ 32 →
        0 <= segmentIndex o < BitmapSegments
        ∧ 0 <= byteIndex o < BytesPerSegment
        ∧ 0 <= bitOffset o < BitsInByte)
  ∧ (∀ o1 o2, 0 <= o1 < 2 ^ 32 → 0 <= o2 < 2 ^ 32 → locate o1 = locate o2 → o1 = o2)
  ∧ (∀ s b k, 0 <= s < BitmapSegments → 0 <= b < BytesPerSegment → 0 <= k < BitsInByte →
              ∃ o, 0 <= o < 2 ^ 32 ∧ locate o = (s, b, k))
  ∧ (∀ o k, 0 <= o < 2 ^ 32 → segmentIndex o = k ↔ k * 2 ^ 24 <= o < (k + 1) * 2 ^ 24).
Proof.
  split; [|split; [|split]].
  - intros o Ho. split; [by apply segmentIndex_range|].
    split; [apply byteIndex_range | apply bitOffset_range].
  - intros o1 o2 _ _. apply locate_inj.
  - intros s b k Hs Hb Hk. exists (s * 2 ^ 24 + b * 8 + k).
    split; [|by apply locate_of_triple].
    rewrite bytes_per_segment in Hb. unfold BitmapSegments, BitsInByte in *. lia.
  - intros o k _. apply segmentIndex_iff.
Qed.

Lemma segment_coverage_witness :
  0 <= 3232235521 < 2 ^ 32
  ∧ (0 <= segmentIndex 3232235521 < BitmapSegments
     ∧ 0 <= byteIndex 3232235521 < BytesPerSegment
     ∧ 0 <= bitOffset 3232235521 < BitsInByte)
  ∧ (locate 3232235521 = locate 3232235521 → 3232235521 = 3232235521)
  ∧ (0 <= 192 < BitmapSegments ∧ 0 <= 1376256 < BytesPerSegment ∧ 0 <= 1 < BitsInByte
     ∧ ∃ o, 0 <= o < 2 ^ 32 ∧ locate o = (192, 1376256, 1)).
Proof.
  assert (0 <= 3232235521 < 2 ^ 32) as Ho by lia.
  assert (0 <= 192 < BitmapSegments) as Hs by (vm_compute; intuition discriminate).
  assert (0 <= 1376256 < BytesPerSegment) as Hb by (vm_compute; intuition discriminate).
  assert (0 <= 1 < BitsInByte) as Hk by (vm_compute; intuition discriminate).
  split; [exact Ho|].
  split; [exact (proj1 segment_coverage _ Ho)|].
  split; [exact (proj1 (proj2 segment_coverage) _ _ Ho Ho)|].
  split; [exact Hs|]. split; [exact Hb|]. split; [exact Hk|].
  exact (proj1 (proj2 (proj2 segment_coverage)) _ _ _ Hs Hb Hk).
Defined.

(** C8.  [NewSegmentedBitmap] creates 256 segments of [BytesPerSegment] =
    2^21 bytes each, 2^32/8 = 2^29 bytes (512 MiB) in all, and the total is
    still 2^29 after the worker pool has processed any batches whatever. *)
Theorem bitmap_size_fixed :
  length (segments NewSegmentedBitmap) = 256%nat
  ∧ Forall (λ s, slice_len s = BytesPerSegment) (segments NewSegmentedBitmap)
  ∧ BytesPerSegment = 2 ^ 21
  ∧ total_bytes NewSegmentedBitmap = MaxIP / 8
  ∧ MaxIP / 8 = 2 ^ 29
  ∧ 2 ^ 29 = 512 * 1024 * 1024
  ∧ (∀ batches, ∃ results sb',
       worker batches NewSegmentedBitmap = Some (results, sb')
       ∧ total_bytes sb' = 2 ^ 29).
Proof.
  split; [by vm_compute|].
  split; [by apply Forall_replicate|].
  split; [done|]. split; [by vm_compute|]. split; [done|]. split; [done|].
  intros batches.
  destruct (worker_tracks batches _ _ NewSegmentedBitmap_tracks)
    as (results & sb' & Hw & _).
  exists results, sb'. split; [done|].
  rewrite total_bytes_lengths, (worker_lengths _ _ _ _ Hw), <- total_bytes_lengths.
  by vm_compute.
Qed.

(** C9.  On any bitmap, [processBatch] on a batch of empty strings only
    returns the count 0 and a nil error and leaves the bitmap as it was. *)
Theorem empty_lines_skipped (sb : SegmentedBitmap) (batch : list gostring) :
  Forall (λ ip, ip = []) batch →
  processBatch batch sb = Some (0, None, sb).
Proof.
  intros Hb. unfold processBatch.
  assert (Hloop : processBatch_loop batch sb 0 = Some (0, sb)).
  { induction Hb as [|ip rest -> _ IH]; [done | exact IH]. }
  by rewrite Hloop.
Qed.

Lemma empty_lines_skipped_witness :
  Forall (λ ip : gostring, ip = []) [[]; []; []]
  ∧ processBatch [[]; []; []] NewSegmentedBitmap
    = Some (0, None, NewSegmentedBitmap).
Proof.
  assert (Forall (λ ip : gostring, ip = []) [[]; []; []]) as Hb
    by (repeat constructor).
  split; [exact Hb | exact (empty_lines_skipped _ _ Hb)].
Defined.

(** C10.  A [MarkIP] call on a well-shaped bitmap returns, and whatever it
    returns: the segments keep their lengths, every byte other than the one
    at (segmentIndex, byteIndex) of the ordinal is unchanged, and in that
    byte every bit other than bitOffset is unchanged. *)
Theorem MarkIP_frame (sb : SegmentedBitmap) (o : Z) :
  wf_bitmap sb → 0 <= o < 2 ^ 32 →
  ∃ r sb' b b',
    MarkIP sb o = Some (r, sb')
    ∧ slice_len <$> segments sb' = slice_len <$> segments sb
    ∧ (∀ s i, (s, i) ≠ (segmentIndex o, byteIndex o) → byte_at sb' s i = byte_at sb s i)
    ∧ byte_at sb (segmentIndex o) (byteIndex o) = Some b
    ∧ byte_at sb' (segmentIndex o) (byteIndex o) = Some b'
    ∧ (∀ j, j ≠ bitOffset o → Z.testbit b' j = Z.testbit b j).
Proof.
  intros Hwf Ho.
  destruct (MarkIP_total sb o Hwf Ho) as (r & sb' & HM).
  destruct (MarkIP_target _ _ _ _ HM) as (b & Hb & Hr & Hb').
  exists r, sb', b, (if r then Z.lor b (2 ^ bitOffset o) else b).
  split; [done|]. split; [by eapply MarkIP_lengths|].
  split; [intros s i Hne; by eapply MarkIP_other_bytes|].
  split; [done|]. split; [done|].
  intros j Hj. destruct r; [|done].
  rewrite lor_pow2_testbit by apply bitOffset_range.
  destruct (Z.eqb_spec (bitOffset o) j); [congruence | apply orb_false_r].
Qed.

Lemma MarkIP_frame_witness :
  wf_bitmap NewSegmentedBitmap ∧ 0 <= 3232235521 < 2 ^ 32
  ∧ ∃ r sb' b b',
      MarkIP NewSegmentedBitmap 3232235521 = Some (r, sb')
      ∧ slice_len <$> segments sb' = slice_len <$> segments NewSegmentedBitmap
      ∧ (∀ s i, (s, i) ≠ (segmentIndex 3232235521, byteIndex 3232235521) →
                byte_at sb' s i = byte_at NewSegmentedBitmap s i)
      ∧ byte_at NewSegmentedBitmap (segmentIndex 3232235521) (byteIndex 3232235521) = Some b
      ∧ byte_at sb' (segmentIndex 3232235521) (byteIndex 3232235521) = Some b'
      ∧ (∀ j, j ≠ bitOffset 3232235521 → Z.testbit b' j = Z.testbit b j).
Proof.
  assert (0 <= 3232235521 < 2 ^ 32) as Ho by lia.
  split; [exact NewSegmentedBitmap_wf|]. split; [exact Ho|].
  exact (MarkIP_frame _ _ NewSegmentedBitmap_wf Ho).
Defined.

(** C4.  [ipToInt] maps every well-formed dotted quad, four decimal octets of
    0..255 between three dots, to the big-endian packing of the octets,
    [octet0 << 24 + octet1 << 16 + octet2 << 8 + octet3]; and it maps
    192.168.0.1 to 3232235521, 0.0.0.0 to 0 and 255.255.255.255 to
    4294967295. *)
Theorem ipToInt_dotted_quad :
  (∀ a b c d,
     is_octet a = true → is_octet b = true → is_octet c = true → is_octet d = true →
     ipToInt (dotted a b c d) = pack (decimal a) (decimal b) (decimal c) (decimal d))
  ∧ ipToInt (str "192.168.0.1") = 3232235521
  ∧ ipToInt (str "0.0.0.0") = 0
  ∧ ipToInt (str "255.255.255.255") = 4294967295.
Proof.
  split; [apply ipToInt_dotted | by vm_compute].
Qed.

Lemma ipToInt_dotted_quad_witness :
  is_octet (str "192") = true ∧ is_octet (str "168") = true
  ∧ is_octet (str "0") = true ∧ is_octet (str "1") = true
  ∧ ipToInt (dotted (str "192") (str "168") (str "0") (str "1"))
    = pack (decimal (str "192")) (decimal (str "168")) (decimal (str "0"))
        (decimal (str "1")).
Proof.
  assert (is_octet (str "192") = true) as Ha by (vm_compute; reflexivity).
  assert (is_octet (str "168") = true) as Hb by (vm_compute; reflexivity).
  assert (is_octet (str "0") = true) as Hc by (vm_compute; reflexivity).
  assert (is_octet (str "1") = true) as Hd by (vm_compute; reflexivity).
  split; [exact Ha|]. split; [exact Hb|]. split; [exact Hc|]. split; [exact Hd|].
  exact (proj1 ipToInt_dotted_quad _ _ _ _ Ha Hb Hc Hd).
Defined.

(** C7.  [ipToInt] yields an ordinal for every string, [processBatch] raises no
    error on any batch, and the malformed 256.0.0.1 gets, by wrap-around
    modulo 2^32, the ordinal of the well-formed 0.0.0.1: the two lines
    count as one address. *)
Theorem malformed_lines_encoded :
  (∀ ip, 0 <= ipToInt ip < 2 ^ 32)
  ∧ (∀ batch, ∃ n sb', processBatch batch NewSegmentedBitmap = Some (n, None, sb'))
  ∧ ¬ well_formed (str "256.0.0.1")
  ∧ well_formed (str "0.0.0.1")
  ∧ ipToInt (str "256.0.0.1") = (256 * 2 ^ 24 + 1) mod 2 ^ 32
  ∧ ipToInt (str "256.0.0.1") = ipToInt (str "0.0.0.1")
  ∧ distinct_ordinals [str "256.0.0.1"; str "0.0.0.1"] = 1.
Proof.
  split; [apply ipToInt_range|].
  split.
  { intros batch.
    destruct (processBatch_tracks batch _ _ NewSegmentedBitmap_tracks) as (sb' & Hp & _).
    eauto. }
  split.
  { intros (a & b & c & d & HS & Ha & _)%well_formed_Split.
    vm_compute in HS. injection HS as <- _ _ _. vm_compute in Ha. discriminate. }
  split.
  { exists (str "0"), (str "0"), (str "0"), (str "1"). by vm_compute. }
  by vm_compute.
Qed.

(** C1.  On a stream that ends normally with the lines 10.0.0.1 and 10.0.0.2,
    the second without a newline, [readBatch] returns the batch of the first
    line alone, and [countUniqueIPs] returns 1 where the two lines of the
    input have 2 distinct ordinals. *)
Theorem readBatch_drops_unterminated_line :
  readBatch unterminated_input
  = ([str "10.0.0.1"], None, {| pending := []; tail_err := EOF |})
  ∧ all_lines (pending unterminated_input) = [str "10.0.0.1"; str "10.0.0.2"]
  ∧ countUniqueIPs (inr unterminated_input) = Some (1, None)
  ∧ distinct_ordinals (all_lines (pending unterminated_input)) = 2.
Proof. by vm_compute. Qed.

(** C6, as stated, fails: on a stream that gives the line 10.0.0.1 and then
    a read error, [countUniqueIPs] returns 0 and no error, where the line read
    before the error has one ordinal. *)
Lemma read_error_drops_read_lines :
  tail_err failing_stream ≠ EOF
  ∧ terminated_lines (pending failing_stream) = [str "10.0.0.1"]
  ∧ countUniqueIPs (inr failing_stream) = Some (0, None)
  ∧ ¬ counts_read_prefix failing_stream.
Proof.
  split; [done|]. split; [by vm_compute|]. split; [by vm_compute|].
  unfold counts_read_prefix. vm_compute. discriminate.
Qed.

(** C6, amended.  When the stream fails with an error other than the end of
    the stream, the producer stops, and [countUniqueIPs] returns a nil error
    and the number of distinct ordinals of the lines of the full batches read
    before the error, the first [BatchSize * (n / BatchSize)] of the [n]
    lines read, in whatever order the batches are processed. *)
Theorem read_error_partial_count (r : Reader) :
  tail_err r ≠ EOF →
  ∃ batches,
    producer (Z.to_nat BatchSize) r = Some batches
    ∧ concat batches = full_batches (Z.to_nat BatchSize) (terminated_lines (pending r))
    ∧ (∀ order, order ≡ₚ batches →
         run_pool order
         = Some (distinct_ordinals
                   (full_batches (Z.to_nat BatchSize) (terminated_lines (pending r))),
                 None))
    ∧ countUniqueIPs (inr r)
      = Some (distinct_ordinals
                (full_batches (Z.to_nat BatchSize) (terminated_lines (pending r))),
              None).
Proof.
  intros Herr.
  destruct (producer_spec (Z.to_nat BatchSize) r BatchSize_pos)
    as (batches & Hprod & Hcat & _).
  assert (is_EOF (tail_err r) = false) as Hne by (by destruct (tail_err r)).
  rewrite Hne in Hcat.
  exists batches. split; [done|]. split; [done|]. split.
  - intros order Hp. rewrite run_pool_count.
    by rewrite (distinct_ordinals_perm _ _ (concat_perm _ _ Hp)), Hcat.
  - unfold countUniqueIPs, countUniqueIPs_of. rewrite Hprod. simpl.
    by rewrite run_pool_count, Hcat.
Qed.

Lemma read_error_partial_count_witness :
  tail_err failing_stream ≠ EOF
  ∧ ∃ batches,
      producer (Z.to_nat BatchSize) failing_stream = Some batches
      ∧ concat batches
        = full_batches (Z.to_nat BatchSize) (terminated_lines (pending failing_stream))
      ∧ (∀ order, order ≡ₚ batches →
           run_pool order
           = Some (distinct_ordinals
                     (full_batches (Z.to_nat BatchSize)
                        (terminated_lines (pending failing_stream))),
                   None))
      ∧ countUniqueIPs (inr failing_stream)
        = Some (distinct_ordinals
                  (full_batches (Z.to_nat BatchSize)
                     (terminated_lines (pending failing_stream))),
                None).
Proof.
  assert (tail_err failing_stream ≠ EOF) as Herr by (vm_compute; discriminate).
  split; [exact Herr | exact (read_error_partial_count _ Herr)].
Defined.

(** * Further properties *)

(** ** The write of MarkIP *)

Lemma seg_set_bit_commute seg b1 k1 b2 k2 :
  seg_set_bit (seg_set_bit seg b1 k1) b2 k2 = seg_set_bit (seg_set_bit seg b2 k2) b1 k1.
Proof.
  unfold seg_set_bit. cbn [slice_len slice_mem]. f_equal.
  destruct (decide (b1 = b2)) as [->|Hne].
  - rewrite !lookup_insert_eq, !insert_insert_eq. cbn [default]. f_equal.
    unfold id. rewrite <- !Z.lor_assoc. f_equal. apply Z.lor_comm.
  - rewrite (lookup_insert_ne _ b1 b2), (lookup_insert_ne _ b2 b1) by done.
    by apply insert_insert_ne.
Qed.

Lemma set_bit_commute sb o1 o2 :
  set_bit (set_bit sb o1) o2 = set_bit (set_bit sb o2) o1.
Proof.
  unfold set_bit.
  destruct (0 <=? segmentIndex o1), (0 <=? segmentIndex o2); cbn [segments]; try done.
  f_equal.
  destruct (decide (Z.to_nat (segmentIndex o2) = Z.to_nat (segmentIndex o1))) as [Heq|Hne].
  - rewrite Heq, !list_alter_alter_eq.
    apply list_alter_ext; [|done]. intros seg _. apply seg_set_bit_commute.
  - by apply list_alter_alter_ne.
Qed.

Lemma list_alter_lookup_insert (f : ByteSlice → ByteSlice) (l : list ByteSlice) (i : nat) x :
  l !! i = Some x → alter f i l = <[i := f x]> l.
Proof.
  intros Hl. rewrite list_insert_alter. apply list_alter_ext; [|done].
  intros y Hy. congruence.
Qed.

(** Whatever a call returns, the bitmap afterwards is the one with the bit
    set. *)
Lemma MarkIP_set_bit sb o r sb' : MarkIP sb o = Some (r, sb') → sb' = set_bit sb o.
Proof.
  intros (seg & b & Hseg & Hb & Hr & Hsb')%MarkIP_Some.
  apply segment_at_Some in Hseg as [Hs Hseg].
  apply slice_get_Some in Hb as [Hi Hb].
  unfold set_bit. destruct (Z.leb_spec 0 (segmentIndex o)); [|lia].
  rewrite (list_alter_lookup_insert _ _ _ _ Hseg). unfold seg_set_bit. rewrite <- Hb.
  destruct r; [done|]. subst sb'.
  symmetry in Hr. apply negb_false_iff in Hr.
  assert (Hmem : slice_mem seg !! byteIndex o = Some b).
  { destruct (slice_mem seg !! byteIndex o) as [v|]; cbn [default] in Hb; [by subst|].
    subst b. by rewrite Z.bits_0 in Hr. }
  assert (Hlor : Z.lor b (2 ^ bitOffset o) = b).
  { apply Z.bits_inj'. intros j Hj. rewrite lor_pow2_testbit by apply bitOffset_range.
    destruct (Z.eqb_spec (bitOffset o) j) as [<-|]; [by rewrite Hr | apply orb_false_r]. }
  rewrite Hlor, (insert_id _ _ _ Hmem).
  destruct sb as [segs]. cbn [segments] in *. f_equal.
  symmetry. apply list_insert_id. rewrite Hseg. by destruct seg.
Qed.

Lemma mark_all_set_bits ordinals : ∀ sb rs sb',
  mark_all sb ordinals = Some (rs, sb') → sb' = foldl set_bit sb ordinals.
Proof.
  induction ordinals as [|o rest IH]; intros sb rs sb' H; simpl in H.
  - by simplify_eq.
  - destruct (MarkIP sb o) as [[r sb1]|] eqn:HM; simpl in H; [|done].
    destruct (mark_all sb1 rest) as [[rs' sb2]|] eqn:Hall; simpl in H; [|done].
    simplify_eq. cbn [foldl]. rewrite <- (MarkIP_set_bit _ _ _ _ HM). by eapply IH.
Qed.

Lemma foldl_set_bit_perm os1 os2 :
  os1 ≡ₚ os2 → ∀ sb, foldl set_bit sb os1 = foldl set_bit sb os2.
Proof.
  induction 1 as [|x l l' _ IH|x y l|l l' l'' _ IH1 _ IH2]; intros sb; cbn [foldl].
  - done.
  - apply IH.
  - by rewrite set_bit_commute.
  - by rewrite IH1.
Qed.

Lemma processBatch_loop_set_bits batch : ∀ sb n m sb',
  processBatch_loop batch sb n = Some (m, sb') →
  sb' = foldl set_bit sb (ipToInt <$> nonempty_lines batch).
Proof.
  induction batch as [|ip rest IH]; intros sb n m sb' H; simpl in H.
  - by simplify_eq.
  - destruct ip as [|c ip]; [by eapply IH|].
    destruct (MarkIP sb (ipToInt (c :: ip))) as [[r sb1]|] eqn:HM; simpl in H; [|done].
    unfold nonempty_lines. rewrite filter_cons_True by done.
    rewrite fmap_cons. cbn [foldl]. rewrite <- (MarkIP_set_bit _ _ _ _ HM).
    by eapply IH.
Qed.

Lemma worker_set_bits batches : ∀ sb rs sb',
  worker batches sb = Some (rs, sb') →
  sb' = foldl set_bit sb (ipToInt <$> nonempty_lines (concat batches)).
Proof.
  induction batches as [|batch rest IH]; intros sb rs sb' H; simpl in H.
  - by simplify_eq.
  - unfold processBatch in H.
    destruct (processBatch_loop batch sb 0) as [[m sb1]|] eqn:Hl; simpl in H; [|done].
    destruct (worker rest sb1) as [[rs' sb2]|] eqn:Hw; simpl in H; [|done].
    simplify_eq. cbn [concat].
    rewrite nonempty_lines_app, fmap_app, foldl_app.
    rewrite <- (processBatch_loop_set_bits _ _ _ _ _ Hl). by eapply IH.
Qed.

(** X1.  Two [MarkIP] calls for distinct ordinals commute: on a well-shaped
    bitmap, made in either order, each call returns the same result and the
    bitmap afterwards is the same. *)
Theorem MarkIP_commute (sb : SegmentedBitmap) (o1 o2 : Z) :
  wf_bitmap sb → 0 <= o1 < 2 ^ 32 → 0 <= o2 < 2 ^ 32 → o1 ≠ o2 →
  ∃ r1 r2 sb1 sb2 sb',
    MarkIP sb o1 = Some (r1, sb1) ∧ MarkIP sb1 o2 = Some (r2, sb')
    ∧ MarkIP sb o2 = Some (r2, sb2) ∧ MarkIP sb2 o1 = Some (r1, sb').
Proof.
  intros Hwf H1 H2 Hne.
  destruct (MarkIP_total sb o1 Hwf H1) as (r1 & sb1 & HM1).
  destruct (MarkIP_total sb o2 Hwf H2) as (r2 & sb2 & HM2).
  destruct (MarkIP_total sb1 o2 (MarkIP_wf _ _ _ _ Hwf HM1) H2) as (r2' & s12 & HM12).
  destruct (MarkIP_total sb2 o1 (MarkIP_wf _ _ _ _ Hwf HM2) H1) as (r1' & s21 & HM21).
  assert (r2' = r2) as ->.
  { rewrite (MarkIP_result _ _ _ _ HM12), (MarkIP_result _ _ _ _ HM2).
    by rewrite (MarkIP_other_marks _ _ _ _ o2 HM1). }
  assert (r1' = r1) as ->.
  { rewrite (MarkIP_result _ _ _ _ HM21), (MarkIP_result _ _ _ _ HM1).
    by rewrite (MarkIP_other_marks _ _ _ _ o1 HM2). }
  assert (s21 = s12) as ->.
  { rewrite (MarkIP_set_bit _ _ _ _ HM21), (MarkIP_set_bit _ _ _ _ HM2).
    rewrite (MarkIP_set_bit _ _ _ _ HM12), (MarkIP_set_bit _ _ _ _ HM1).
    apply set_bit_commute. }
  by exists r1, r2, sb1, sb2, s12.
Qed.

Lemma MarkIP_commute_witness :
  wf_bitmap NewSegmentedBitmap ∧ 0 <= 3232235521 < 2 ^ 32 ∧ 0 <= 3232235520 < 2 ^ 32
  ∧ 3232235521 ≠ 3232235520
  ∧ ∃ r1 r2 sb1 sb2 sb',
      MarkIP NewSegmentedBitmap 3232235521 = Some (r1, sb1)
      ∧ MarkIP sb1 3232235520 = Some (r2, sb')
      ∧ MarkIP NewSegmentedBitmap 3232235520 = Some (r2, sb2)
      ∧ MarkIP sb2 3232235521 = Some (r1, sb').
Proof.
  assert (0 <= 3232235521 < 2 ^ 32) as H1 by lia.
  assert (0 <= 3232235520 < 2 ^ 32) as H2 by lia.
  assert (3232235521 ≠ 3232235520) as Hne by lia.
  split; [exact NewSegmentedBitmap_wf|]. split; [exact H1|]. split; [exact H2|].
  split; [exact Hne|].
  exact (MarkIP_commute _ _ _ NewSegmentedBitmap_wf H1 H2 Hne).
Defined.

(** X2.  The bitmap the worker leaves depends on the lines only, not on how
    they are grouped into batches or in what order they come: two lists of
    batches with the same lines up to order give, from a fresh bitmap, the
    same final bitmap and the same total. *)
Theorem worker_final_bitmap (batches1 batches2 : list (list gostring)) :
  concat batches1 ≡ₚ concat batches2 →
  ∃ results1 results2 sb',
    worker batches1 NewSegmentedBitmap = Some (results1, sb')
    ∧ worker batches2 NewSegmentedBitmap = Some (results2, sb')
    ∧ aggregate results1 = aggregate results2.
Proof.
  intros Hp.
  destruct (worker_tracks batches1 _ _ NewSegmentedBitmap_tracks)
    as (rs1 & sb1 & Hw1 & _ & Hsum1 & _).
  destruct (worker_tracks batches2 _ _ NewSegmentedBitmap_tracks)
    as (rs2 & sb2 & Hw2 & _ & Hsum2 & _).
  assert (sb2 = sb1) as ->.
  { rewrite (worker_set_bits _ _ _ _ Hw1), (worker_set_bits _ _ _ _ Hw2).
    symmetry. apply foldl_set_bit_perm. unfold nonempty_lines. by rewrite Hp. }
  exists rs1, rs2, sb1. split; [done|]. split; [done|].
  by rewrite Hsum1, Hsum2, (ordinals_of_perm _ _ Hp).
Qed.

Lemma worker_final_bitmap_witness :
  concat [[str "10.0.0.2"; []]; [str "10.0.0.1"]]
  ≡ₚ concat [[str "10.0.0.1"; str "10.0.0.2"; []]]
  ∧ ∃ results1 results2 sb',
      worker [[str "10.0.0.2"; []]; [str "10.0.0.1"]] NewSegmentedBitmap
      = Some (results1, sb')
      ∧ worker [[str "10.0.0.1"; str "10.0.0.2"; []]] NewSegmentedBitmap
        = Some (results2, sb')
      ∧ aggregate results1 = aggregate results2.
Proof.
  assert (concat [[str "10.0.0.2"; []]; [str "10.0.0.1"]]
          ≡ₚ concat [[str "10.0.0.1"; str "10.0.0.2"; []]])
    as Hp by (apply (bool_decide_unpack _); vm_compute; exact I).
  split; [exact Hp | exact (worker_final_bitmap _ _ Hp)].
Defined.

(** ** Calls on marked ordinals, and batches on any bitmap *)

Lemma MarkIP_marked sb o : marked sb o = true → MarkIP sb o = Some (false, sb).
Proof.
  unfold marked, byte_at, MarkIP. intros Hm.
  destruct (segment_at sb (segmentIndex o)) as [seg|]; cbn in *; [|done].
  destruct (slice_get seg (byteIndex o)) as [b|]; cbn in *; [|done].
  rewrite shl8_one, land_pow2_testbit by apply bitOffset_range.
  by rewrite Hm.
Qed.

Lemma processBatch_loop_acc batch : ∀ sb n,
  processBatch_loop batch sb n
  = (λ '(m, sb'), (n + m, sb')) <$> processBatch_loop batch sb 0.
Proof.
  induction batch as [|ip rest IH]; intros sb n; cbn [processBatch_loop].
  - cbn. do 2 f_equal. lia.
  - destruct ip as [|c ip]; [apply IH|].
    destruct (MarkIP sb (ipToInt (c :: ip))) as [[r sb1]|]; cbn; [|done].
    rewrite (IH sb1 (if r then n + 1 else n)), (IH sb1 (if r then 0 + 1 else 0)).
    destruct (processBatch_loop rest sb1 0) as [[m sb2]|]; cbn; [|done].
    do 2 f_equal. destruct r; lia.
Qed.

Lemma processBatch_loop_app b1 b2 : ∀ sb n,
  processBatch_loop (b1 ++ b2) sb n
  = processBatch_loop b1 sb n ≫= λ '(m, sb'), processBatch_loop b2 sb' m.
Proof.
  induction b1 as [|ip rest IH]; intros sb n; cbn [app processBatch_loop]; [done|].
  destruct ip as [|c ip]; [apply IH|].
  destruct (MarkIP sb (ipToInt (c :: ip))) as [[r sb1]|]; cbn; [|done].
  apply IH.
Qed.

Lemma processBatch_loop_wf batch : ∀ sb n,
  wf_bitmap sb →
  ∃ m sb',
    processBatch_loop batch sb n = Some (m, sb')
    ∧ wf_bitmap sb'
    ∧ n <= m <= n + Z.of_nat (length (nonempty_lines batch))
    ∧ (∀ o, marked sb' o = true
            ↔ marked sb o = true ∨ o ∈ ipToInt <$> nonempty_lines batch).
Proof.
  induction batch as [|ip rest IH]; intros sb n Hwf.
  - exists n, sb. split; [done|]. split; [done|]. split; [cbn; lia|].
    intros o. cbn. set_solver.
  - destruct ip as [|c ip].
    + destruct (IH sb n Hwf) as (m & sb' & Hl & Hwf' & Hm & Hmarks).
      exists m, sb'. done.
    + set (ip' := c :: ip) in *.
      destruct (MarkIP_total sb (ipToInt ip') Hwf (ipToInt_range _)) as (r & sb1 & HM).
      destruct (IH sb1 (if r then n + 1 else n) (MarkIP_wf _ _ _ _ Hwf HM))
        as (m & sb' & Hl & Hwf' & Hm & Hmarks).
      exists m, sb'. split; [cbn [processBatch_loop]; fold ip'; by rewrite HM|].
      split; [done|].
      unfold nonempty_lines. rewrite filter_cons_True by done.
      fold (nonempty_lines rest). split; [cbn [length]; destruct r; lia|].
      intros o. rewrite Hmarks, fmap_cons, elem_of_cons.
      destruct (decide (o = ipToInt ip')) as [->|Hne].
      * rewrite (MarkIP_marks _ _ _ _ HM). tauto.
      * rewrite (MarkIP_other_marks _ _ _ _ _ HM Hne). tauto.
Qed.

(** X3.  After a [MarkIP] call for an ordinal, whatever it returned, a second
    call for the same ordinal returns false and leaves the bitmap as it is. *)
Theorem MarkIP_idempotent (sb : SegmentedBitmap) (o : Z) (r : bool) (sb' : SegmentedBitmap) :
  MarkIP sb o = Some (r, sb') → MarkIP sb' o = Some (false, sb').
Proof. intros HM. apply MarkIP_marked. by eapply MarkIP_marks. Qed.

Lemma MarkIP_idempotent_witness :
  ∃ sb', MarkIP NewSegmentedBitmap 3232235521 = Some (true, sb')
         ∧ MarkIP sb' 3232235521 = Some (false, sb').
Proof.
  assert (∃ sb', MarkIP NewSegmentedBitmap 3232235521 = Some (true, sb')) as [sb' HM]
    by (eexists; vm_compute; reflexivity).
  exists sb'. split; [exact HM | exact (MarkIP_idempotent _ _ _ _ HM)].
Defined.

(** X4.  On a well-shaped bitmap [processBatch] returns without error and
    keeps the shape, and afterwards an ordinal is marked exactly when it was
    marked before or is the ordinal of a non-empty line of the batch: no mark
    is ever cleared. *)
Theorem processBatch_marks (batch : list gostring) (sb : SegmentedBitmap) :
  wf_bitmap sb →
  ∃ n sb',
    processBatch batch sb = Some (n, None, sb')
    ∧ wf_bitmap sb'
    ∧ (∀ o, marked sb' o = true
            ↔ marked sb o = true ∨ o ∈ ipToInt <$> nonempty_lines batch).
Proof.
  intros Hwf.
  destruct (processBatch_loop_wf batch sb 0 Hwf) as (m & sb' & Hl & Hwf' & _ & Hmarks).
  exists m, sb'. split; [|done]. unfold processBatch. by rewrite Hl.
Qed.

Lemma processBatch_marks_witness :
  wf_bitmap NewSegmentedBitmap
  ∧ ∃ n sb',
      processBatch [str "10.0.0.1"; []; str "10.0.0.1"] NewSegmentedBitmap
      = Some (n, None, sb')
      ∧ wf_bitmap sb'
      ∧ (∀ o, marked sb' o = true
              ↔ marked NewSegmentedBitmap o = true
                ∨ o ∈ ipToInt <$> nonempty_lines [str "10.0.0.1"; []; str "10.0.0.1"]).
Proof.
  split; [exact NewSegmentedBitmap_wf|].
  exact (processBatch_marks _ _ NewSegmentedBitmap_wf).
Defined.

(** X5.  The count [processBatch] returns on a well-shaped bitmap is at least
    0 and at most the number of non-empty lines of the batch. *)
Theorem processBatch_count_bounds (batch : list gostring) (sb : SegmentedBitmap) :
  wf_bitmap sb →
  ∃ n sb',
    processBatch batch sb = Some (n, None, sb')
    ∧ 0 <= n <= Z.of_nat (length (nonempty_lines batch))
    ∧ Z.of_nat (length (nonempty_lines batch)) <= Z.of_nat (length batch).
Proof.
  intros Hwf.
  destruct (processBatch_loop_wf batch sb 0 Hwf) as (m & sb' & Hl & _ & Hm & _).
  exists m, sb'. split; [unfold processBatch; by rewrite Hl|]. split; [lia|].
  apply inj_le, length_filter.
Qed.

Lemma processBatch_count_bounds_witness :
  wf_bitmap NewSegmentedBitmap
  ∧ ∃ n sb',
      processBatch [str "10.0.0.1"; []; str "10.0.0.1"] NewSegmentedBitmap
      = Some (n, None, sb')
      ∧ 0 <= n <= Z.of_nat (length (nonempty_lines [str "10.0.0.1"; []; str "10.0.0.1"]))
      ∧ Z.of_nat (length (nonempty_lines [str "10.0.0.1"; []; str "10.0.0.1"]))
        <= Z.of_nat (length [str "10.0.0.1"; []; str "10.0.0.1"]).
Proof.
  split; [exact NewSegmentedBitmap_wf|].
  exact (processBatch_count_bounds _ _ NewSegmentedBitmap_wf).
Defined.

(** X6.  On any bitmap, a batch whose non-empty lines all have their ordinal
    already marked gives the count 0 and leaves the bitmap as it is. *)
Theorem processBatch_seen_lines (batch : list gostring) (sb : SegmentedBitmap) :
  Forall (λ ip, ip = [] ∨ marked sb (ipToInt ip) = true) batch →
  processBatch batch sb = Some (0, None, sb).
Proof.
  intros Hb. unfold processBatch.
  assert (Hloop : processBatch_loop batch sb 0 = Some (0, sb)).
  { induction Hb as [|ip rest Hip _ IH]; [done|].
    cbn [processBatch_loop]. destruct ip as [|c ip]; [exact IH|].
    destruct Hip as [Hnil|Hm]; [done|].
    rewrite (MarkIP_marked _ _ Hm). cbn. exact IH. }
  by rewrite Hloop.
Qed.

Lemma processBatch_seen_lines_witness :
  Forall (λ ip, ip = [] ∨ marked (set_bit NewSegmentedBitmap (ipToInt (str "10.0.0.1")))
                             (ipToInt ip) = true)
    [str "10.0.0.1"; []; str "10.0.0.1"]
  ∧ processBatch [str "10.0.0.1"; []; str "10.0.0.1"]
      (set_bit NewSegmentedBitmap (ipToInt (str "10.0.0.1")))
    = Some (0, None, set_bit NewSegmentedBitmap (ipToInt (str "10.0.0.1"))).
Proof.
  assert (Forall (λ ip, ip = [] ∨ marked (set_bit NewSegmentedBitmap
                                            (ipToInt (str "10.0.0.1")))
                                     (ipToInt ip) = true)
            [str "10.0.0.1"; []; str "10.0.0.1"]) as Hb.
  { repeat constructor; first [by left | right; vm_compute; reflexivity]. }
  split; [exact Hb | exact (processBatch_seen_lines _ _ Hb)].
Defined.

(** X7.  Processing a batch in two parts, one after the other on the same
    bitmap, is processing it whole: the counts add up and the bitmap
    afterwards is the same, a panic in either part included. *)
Theorem processBatch_app (b1 b2 : list gostring) (sb : SegmentedBitmap) :
  processBatch (b1 ++ b2) sb
  = match processBatch b1 sb with
    | Some (n1, _, sb1) =>
        match processBatch b2 sb1 with
        | Some (n2, _, sb2) => Some (n1 + n2, None, sb2)
        | None => None
        end
    | None => None
    end.
Proof.
  unfold processBatch. rewrite processBatch_loop_app.
  destruct (processBatch_loop b1 sb 0) as [[n1 sb1]|]; cbn; [|done].
  rewrite (processBatch_loop_acc b2 sb1 n1).
  by destruct (processBatch_loop b2 sb1 0) as [[n2 sb2]|].
Qed.

(** ** Cleanup *)

Lemma segment_at_Cleanup sb s seg :
  segment_at (Cleanup sb) s = Some seg → seg = make_bytes 0.
Proof.
  intros [_ Hseg]%segment_at_Some. unfold Cleanup in Hseg. cbn [segments] in Hseg.
  rewrite list_lookup_fmap in Hseg.
  destruct (segments sb !! Z.to_nat s); cbn in Hseg; by simplify_eq.
Qed.

Lemma MarkIP_Cleanup sb o : MarkIP (Cleanup sb) o = None.
Proof.
  unfold MarkIP.
  destruct (segment_at (Cleanup sb) (segmentIndex o)) as [seg|] eqn:Hseg; [|done].
  apply segment_at_Cleanup in Hseg as ->. cbn.
  unfold slice_get. cbn [slice_len make_bytes].
  by destruct (Z.leb_spec 0 (byteIndex o)), (Z.ltb_spec (byteIndex o) 0); try lia.
Qed.

(** X8.  [Cleanup] leaves no storage: the segments are as many as before and
    all empty, 0 bytes in all, and no byte can be read; a second [Cleanup]
    changes nothing. *)
Theorem Cleanup_releases (sb : SegmentedBitmap) :
  length (segments (Cleanup sb)) = length (segments sb)
  ∧ Forall (λ seg, slice_len seg = 0) (segments (Cleanup sb))
  ∧ total_bytes (Cleanup sb) = 0
  ∧ (∀ s i, byte_at (Cleanup sb) s i = None)
  ∧ Cleanup (Cleanup sb) = Cleanup sb.
Proof.
  unfold Cleanup, total_bytes. cbn [segments].
  split; [apply length_fmap|].
  split; [apply Forall_fmap, Forall_true; done|].
  split; [induction (segments sb) as [|seg l IH]; [done|]; cbn; by rewrite IH|].
  split.
  - intros s i. unfold byte_at.
    destruct (segment_at _ s) as [seg|] eqn:Hseg; [|done].
    apply (segment_at_Cleanup sb) in Hseg as ->. cbn.
    unfold slice_get. cbn [slice_len make_bytes].
    by destruct (Z.leb_spec 0 i), (Z.ltb_spec i 0); try lia.
  - f_equal. rewrite <- list_fmap_compose. done.
Qed.

(** X9.  After [Cleanup] every [MarkIP] call panics, whatever the ordinal, and
    so does [processBatch] on any batch that holds a non-empty line. *)
Theorem use_after_Cleanup (sb : SegmentedBitmap) :
  (∀ o, MarkIP (Cleanup sb) o = None)
  ∧ (∀ batch, Exists (λ ip, ip ≠ []) batch → processBatch batch (Cleanup sb) = None).
Proof.
  split; [apply MarkIP_Cleanup|].
  intros batch Hb. unfold processBatch.
  assert (Hloop : processBatch_loop batch (Cleanup sb) 0 = None).
  { induction batch as [|ip rest IH]; [by apply Exists_nil in Hb|].
    cbn [processBatch_loop]. destruct ip as [|c ip].
    - apply IH. apply Exists_cons in Hb as [Hb|Hb]; done.
    - by rewrite MarkIP_Cleanup. }
  by rewrite Hloop.
Qed.

Lemma use_after_Cleanup_witness :
  Exists (λ ip : gostring, ip ≠ []) [[]; str "10.0.0.1"]
  ∧ MarkIP (Cleanup NewSegmentedBitmap) 3232235521 = None
  ∧ processBatch [[]; str "10.0.0.1"] (Cleanup NewSegmentedBitmap) = None.
Proof.
  assert (Exists (λ ip : gostring, ip ≠ []) [[]; str "10.0.0.1"]) as Hb
    by (apply (bool_decide_unpack _); vm_compute; exact I).
  split; [exact Hb|].
  split; [exact (proj1 (use_after_Cleanup NewSegmentedBitmap) _)|].
  exact (proj2 (use_after_Cleanup NewSegmentedBitmap) _ Hb).
Defined.

(** ** The codec on any string *)

Lemma shift_count_low i : 0 <= i <= 3 → shift_count i = 8 * (3 - i).
Proof.
  intros Hi. unfold shift_count, u64, BitsInByte.
  rewrite (Z.mod_small (3 - i)) by lia. apply Z.mod_small. lia.
Qed.

Lemma shift_count_high i : 4 <= i < 2 ^ 61 → 32 <= shift_count i.
Proof.
  intros Hi. unfold shift_count, u64, BitsInByte.
  assert (H1 : (3 - i) mod 2 ^ 64 = 2 ^ 64 + 3 - i).
  { symmetry. apply (Z.mod_unique _ _ (-1)); lia. }
  rewrite H1.
  assert (H2 : (8 * (2 ^ 64 + 3 - i)) mod 2 ^ 64 = 2 ^ 64 + 24 - 8 * i).
  { symmetry. apply (Z.mod_unique _ _ 7); lia. }
  rewrite H2. lia.
Qed.

(** The segments from the fifth on leave the result as it is. *)
Lemma ipToInt_loop_ignored segs : ∀ i result,
  4 <= i → i + Z.of_nat (length segs) <= 2 ^ 61 → 0 <= result < 2 ^ 32 →
  ipToInt_loop segs i result = result.
Proof.
  induction segs as [|seg rest IH]; intros i result Hi Hlen Hr; cbn [ipToInt_loop]; [done|].
  cbn [length] in Hlen.
  pose proof (shift_count_high i ltac:(lia)) as Hs.
  unfold shl32. destruct (Z.ltb_spec (shift_count i) 32); [lia|].
  rewrite Z.add_0_r. unfold u32. rewrite Z.mod_small by done.
  apply IH; lia.
Qed.

Lemma shl32_segment_value s k :
  0 <= k < 32 → shl32 (segment_value s) k = u32 (decimal s * 2 ^ k).
Proof.
  intros Hk. unfold shl32. destruct (Z.ltb_spec k 32); [|lia].
  rewrite Z.shiftl_mul_pow2, segment_value_decimal by lia.
  unfold u32. by rewrite Z.mul_mod_idemp_l by lia.
Qed.

(** X10.  On any string of fewer than 2^61 segments, digits or not, [ipToInt]
    is the big-endian packing of the decimal readings of the first four
    dot-separated segments taken modulo 2^32: a missing segment counts as 0,
    segments after the fourth are ignored, and nothing is range-checked. *)
Theorem ipToInt_modular (ip : gostring) :
  Z.of_nat (length (Split ip 46)) <= 2 ^ 61 →
  ipToInt ip
  = (decimal (segment_of ip 0) * 2 ^ 24 + decimal (segment_of ip 1) * 2 ^ 16
     + decimal (segment_of ip 2) * 2 ^ 8 + decimal (segment_of ip 3)) mod 2 ^ 32.
Proof.
  intros Hlen. unfold ipToInt, segment_of.
  destruct (Split ip 46) as [|s0 [|s1 [|s2 [|s3 rest]]]];
    cbn [ipToInt_loop lookup list_lookup default];
    change (decimal []) with 0;
    rewrite ?(shift_count_low 0), ?(shift_count_low (0 + 1)),
      ?(shift_count_low (0 + 1 + 1)), ?(shift_count_low (0 + 1 + 1 + 1)) by lia;
    rewrite ?shl32_segment_value by lia;
    rewrite ?ipToInt_loop_ignored by (cbn [length] in Hlen; first [lia | apply u32_range]);
    change (8 * (3 - 0)) with 24; change (8 * (3 - (0 + 1))) with 16;
    change (8 * (3 - (0 + 1 + 1))) with 8; change (8 * (3 - (0 + 1 + 1 + 1))) with 0;
    unfold u32, id; first [reflexivity | Z.div_mod_to_equations; lia].
Qed.

Lemma ipToInt_modular_witness :
  Z.of_nat (length (Split (str "300.2.3.4.5") 46)) <= 2 ^ 61
  ∧ ipToInt (str "300.2.3.4.5")
    = (decimal (segment_of (str "300.2.3.4.5") 0) * 2 ^ 24
       + decimal (segment_of (str "300.2.3.4.5") 1) * 2 ^ 16
       + decimal (segment_of (str "300.2.3.4.5") 2) * 2 ^ 8
       + decimal (segment_of (str "300.2.3.4.5") 3)) mod 2 ^ 32.
Proof.
  assert (Z.of_nat (length (Split (str "300.2.3.4.5") 46)) <= 2 ^ 61) as Hlen
    by (vm_compute; discriminate).
  split; [exact Hlen | exact (ipToInt_modular _ Hlen)].
Defined.

(** X11.  Two different dotted quads in the usual writing (four octets of
    0..255 without leading zeros) never get the same ordinal. *)
Theorem distinct_addresses_distinct_ordinals (ip ip' : gostring) :
  canonical ip → canonical ip' → ip ≠ ip' → ipToInt ip ≠ ipToInt ip'.
Proof. intros Hc Hc' Hne Heq. apply Hne. by apply ipToInt_canonical_inj. Qed.

Lemma distinct_addresses_distinct_ordinals_witness :
  canonical (str "10.0.0.1") ∧ canonical (str "10.0.1.0")
  ∧ str "10.0.0.1" ≠ str "10.0.1.0"
  ∧ ipToInt (str "10.0.0.1") ≠ ipToInt (str "10.0.1.0").
Proof.
  assert (canonical (str "10.0.0.1")) as Hc.
  { exists (str "10"), (str "0"), (str "0"), (str "1"). by vm_compute. }
  assert (canonical (str "10.0.1.0")) as Hc'.
  { exists (str "10"), (str "0"), (str "1"), (str "0"). by vm_compute. }
  assert (str "10.0.0.1" ≠ str "10.0.1.0") as Hne by (vm_compute; discriminate).
  split; [exact Hc|]. split; [exact Hc'|]. split; [exact Hne|].
  exact (distinct_addresses_distinct_ordinals _ _ Hc Hc' Hne).
Defined.

(** ** readBatch *)

Lemma TrimLeft_cases s :
  TrimLeft s = [] ∨ ∃ c t, TrimLeft s = c :: t ∧ isSpace c = false.
Proof.
  induction s as [|c s IH]; cbn [TrimLeft]; [by left|].
  destruct (isSpace c) eqn:Hc; [done|]. right. by exists c, s.
Qed.

Lemma TrimLeft_snoc l c : isSpace c = false → TrimLeft (l ++ [c]) = TrimLeft l ++ [c].
Proof.
  intros Hc. induction l as [|x l IH]; cbn [app TrimLeft]; [by rewrite Hc|].
  by destruct (isSpace x).
Qed.

Lemma TrimLeft_spaces s : forallb isSpace s = true → TrimLeft s = [].
Proof.
  induction s as [|c s IH]; cbn; [done|].
  intros [Hc Hs]%andb_true_iff. rewrite Hc. by apply IH.
Qed.

Lemma TrimSpace_trimmed s : trimmed (TrimSpace s).
Proof.
  unfold TrimSpace, TrimRight. split.
  - intros c t Heq.
    destruct (TrimLeft_cases s) as [Hnil|(c0 & t0 & Ht & Hc0)].
    + rewrite Hnil in Heq. done.
    + rewrite Ht in Heq. cbn [rev] in Heq.
      rewrite (TrimLeft_snoc _ _ Hc0), rev_unit in Heq. by simplify_eq.
  - intros t c Heq. apply (f_equal (@rev Z)) in Heq.
    rewrite rev_involutive, rev_unit in Heq.
    destruct (TrimLeft_cases (rev (TrimLeft s))) as [Hnil|(c0 & t0 & Ht & Hc0)];
      rewrite Heq in *; by simplify_eq.
Qed.

Lemma terminated_lines_trimmed s l : l ∈ terminated_lines s → trimmed l.
Proof.
  unfold terminated_lines. intros (w & -> & _)%list_elem_of_fmap.
  apply TrimSpace_trimmed.
Qed.

(** X12.  When the stream still holds at least as many newline-terminated
    lines as the batch size, [readBatch] returns exactly the first of them,
    trimmed and in order, with a nil error, and leaves the reader at the line
    that follows. *)
Theorem readBatch_full_batch (B : nat) (r : Reader) :
  (B ≤ length (terminated_lines (pending r)))%nat →
  ∃ r',
    readBatch_of B r = (take B (terminated_lines (pending r)), None, r')
    ∧ tail_err r' = tail_err r
    ∧ terminated_lines (pending r') = drop B (terminated_lines (pending r)).
Proof.
  intros HB. destruct (readBatch_loop_spec B [] r) as (r' & He & Hr').
  rewrite decide_True in Hr' by done. destruct Hr' as (Hres & Hls & _).
  exists r'. unfold readBatch_of. by rewrite Hres.
Qed.

Lemma readBatch_full_batch_witness :
  (2 ≤ length (terminated_lines
                 (text [str "10.0.0.1"; str " 10.0.0.2 "; str "10.0.0.3"] [])))%nat
  ∧ ∃ r',
      readBatch_of 2
        {| pending := text [str "10.0.0.1"; str " 10.0.0.2 "; str "10.0.0.3"] [];
           tail_err := EOF |}
      = (take 2 (terminated_lines
                   (text [str "10.0.0.1"; str " 10.0.0.2 "; str "10.0.0.3"] [])),
         None, r')
      ∧ tail_err r' = EOF
      ∧ terminated_lines (pending r')
        = drop 2 (terminated_lines
                    (text [str "10.0.0.1"; str " 10.0.0.2 "; str "10.0.0.3"] [])).
Proof.
  assert (2 ≤ length (terminated_lines
                        (text [str "10.0.0.1"; str " 10.0.0.2 "; str "10.0.0.3"] [])))%nat
    as HB by (vm_compute; lia).
  split; [exact HB|].
  exact (readBatch_full_batch 2
           {| pending := text [str "10.0.0.1"; str " 10.0.0.2 "; str "10.0.0.3"] [];
              tail_err := EOF |} HB).
Defined.

(** X13.  When fewer newline-terminated lines are left than the batch size,
    [readBatch] consumes the rest of the stream, and returns those lines with
    a nil error only if the stream ended normally and there is at least one;
    otherwise it returns a nil batch and the error that ended the stream. *)
Theorem readBatch_end_of_stream (B : nat) (r : Reader) :
  (length (terminated_lines (pending r)) < B)%nat →
  ∃ r',
    readBatch_of B r
    = (if is_EOF (tail_err r) && (0 <? Z.of_nat (length (terminated_lines (pending r))))
       then (terminated_lines (pending r), None, r')
       else ([], Some (tail_err r), r'))
    ∧ pending r' = [] ∧ tail_err r' = tail_err r.
Proof.
  intros HB. destruct (readBatch_loop_spec B [] r) as (r' & He & Hr').
  rewrite decide_False in Hr' by lia. destruct Hr' as (Hres & Hp).
  exists r'. unfold readBatch_of. by rewrite Hres.
Qed.

Lemma readBatch_end_of_stream_witness :
  (length (terminated_lines (text [str "10.0.0.1"] (str "10.0.0.2"))) < 2)%nat
  ∧ ∃ r',
      readBatch_of 2 {| pending := text [str "10.0.0.1"] (str "10.0.0.2");
                        tail_err := Errno 5 |}
      = (if is_EOF (Errno 5)
            && (0 <? Z.of_nat (length (terminated_lines
                                         (text [str "10.0.0.1"] (str "10.0.0.2")))))
         then (terminated_lines (text [str "10.0.0.1"] (str "10.0.0.2")), None, r')
         else ([], Some (Errno 5), r'))
      ∧ pending r' = [] ∧ tail_err r' = Errno 5.
Proof.
  assert (length (terminated_lines (text [str "10.0.0.1"] (str "10.0.0.2"))) < 2)%nat
    as HB by (vm_compute; lia).
  split; [exact HB|].
  exact (readBatch_end_of_stream 2
           {| pending := text [str "10.0.0.1"] (str "10.0.0.2"); tail_err := Errno 5 |}
           HB).
Defined.

(** X14.  Every line of a batch that [readBatch] returns is trimmed: it has no
    white space at either end, and a line of white space only is passed on
    as the empty string. *)
Theorem readBatch_lines_trimmed (B : nat) (r : Reader) :
  (∀ l, l ∈ (readBatch_of B r).1.1 → trimmed l)
  ∧ (∀ s, forallb isSpace s = true → TrimSpace s = []).
Proof.
  split.
  - destruct (readBatch_loop_spec B [] r) as (r' & He & Hr').
    unfold readBatch_of. intros l Hl.
    destruct (decide (B ≤ length (terminated_lines (pending r)))%nat).
    + destruct Hr' as (Hres & _). rewrite Hres in Hl. cbn in Hl.
      apply (terminated_lines_trimmed (pending r)).
      apply elem_of_take in Hl as (i & Hi & _). by eapply list_elem_of_lookup_2.
    + destruct Hr' as (Hres & _). rewrite Hres in Hl.
      destruct (is_EOF (tail_err r) && _); cbn in Hl; [|by apply elem_of_nil in Hl].
      by apply (terminated_lines_trimmed (pending r)).
  - intros s Hs. unfold TrimSpace. by rewrite (TrimLeft_spaces s Hs).
Qed.


Lemma readBatch_lines_trimmed_witness :
  str "10.0.0.2" ∈ (readBatch_of 2
                      {| pending := text [str " 10.0.0.2 "; [9; 32; 13]] [];
                         tail_err := EOF |}).1.1
  ∧ trimmed (str "10.0.0.2")
  ∧ forallb isSpace [9; 32; 13] = true ∧ TrimSpace [9; 32; 13] = [].
Proof.
  assert (str "10.0.0.2" ∈ (readBatch_of 2
                              {| pending := text [str " 10.0.0.2 "; [9; 32; 13]] [];
                                 tail_err := EOF |}).1.1) as Hl
    by (apply (bool_decide_unpack _); vm_compute; exact I).
  assert (forallb isSpace [9; 32; 13] = true) as Hs by (vm_compute; reflexivity).
  split; [exact Hl|].
  split; [exact (proj1 (readBatch_lines_trimmed 2 _) _ Hl)|].
  split; [exact Hs|].
  exact (proj2 (readBatch_lines_trimmed 2
                  {| pending := text [str " 10.0.0.2 "; [9; 32; 13]] [];
                     tail_err := EOF |}) _ Hs).
Defined.

(** ** The producer and countUniqueIPs *)

Lemma producer_loop_windows B :
  (0 < B)%nat → ∀ fuel r,
  (length (pending r) < fuel)%nat →
  ∃ batches,
    producer_loop fuel B r = Some batches
    ∧ (∀ i b, batches !! i = Some b →
         b = take B (drop (i * B) (terminated_lines (pending r)))
         ∧ b ≠ []
         ∧ (is_EOF (tail_err r) = false → length b = B)).
Proof.
  intros HB. induction fuel as [|fuel IH]; intros r Hfuel; [lia|].
  cbn [producer_loop]. unfold readBatch_of.
  destruct (readBatch_loop_spec B [] r) as (r' & He & Hr').
  set (ls := terminated_lines (pending r)) in *.
  destruct (decide (B ≤ length ls)%nat) as [Hle|Hgt].
  - destruct Hr' as (-> & Hls' & Hm). cbn [app].
    destruct (IH r' ltac:(lia)) as (batches & -> & Hwin).
    exists (take B ls :: batches). split; [done|].
    intros [|i] b Hb; cbn in Hb.
    + simplify_eq. rewrite drop_0. split; [done|]. split.
      * intros Hnil. apply (f_equal length) in Hnil.
        rewrite length_take in Hnil. cbn in Hnil. lia.
      * intros _. rewrite length_take. lia.
    + destruct (Hwin i b Hb) as (Hb1 & Hb2 & Hb3).
      rewrite Hls', drop_drop in Hb1. rewrite He in Hb3. by split.
  - destruct Hr' as (-> & Hp'). cbn [app].
    destruct (is_EOF (tail_err r)) eqn:Heof; cbn [andb].
    + destruct (Z.ltb_spec 0 (Z.of_nat (length ls))) as [Hpos|Hzero].
      * assert (length (pending r) ≠ 0)%nat as Hnz.
        { intros Hz. apply length_zero_iff_nil in Hz.
          subst ls. rewrite Hz in Hpos. cbn in Hpos. lia. }
        destruct (IH r' ltac:(rewrite Hp'; cbn; lia)) as (batches & -> & Hwin).
        exists (ls :: batches). split; [done|].
        intros [|i] b Hb; cbn in Hb.
        -- simplify_eq. rewrite drop_0, take_ge by lia. split; [done|]. split; [|done].
           intros Hnil. rewrite Hnil in Hpos. cbn in Hpos. lia.
        -- destruct (Hwin i b Hb) as (Hb1 & Hb2 & _). rewrite Hp' in Hb1.
           change (terminated_lines []) with (@nil gostring) in Hb1.
           rewrite drop_nil, take_nil in Hb1. done.
      * exists []. split; [done|]. intros i b Hb. done.
    + exists []. split; [done|]. intros i b Hb. done.
Qed.

Lemma remove_dups_length (l : list Z) : (length (remove_dups l) ≤ length l)%nat.
Proof.
  induction l as [|x l IH]; cbn [remove_dups length]; [done|].
  destruct (decide_rel elem_of x l); cbn [length]; lia.
Qed.

Lemma distinct_ordinals_bounds input :
  0 <= distinct_ordinals input <= Z.of_nat (length (nonempty_lines input))
  ∧ Z.of_nat (length (nonempty_lines input)) <= Z.of_nat (length input)
  ∧ distinct_ordinals input <= 2 ^ 32.
Proof.
  split; [|split].
  - unfold distinct_ordinals.
    pose proof (remove_dups_length (ipToInt <$> nonempty_lines input)) as H.
    rewrite length_fmap in H. lia.
  - apply inj_le, length_filter.
  - rewrite distinct_ordinals_size.
    assert (Hsub : ordinals_of input ⊆ list_to_set (seqZ 0 (2 ^ 32))).
    { intros o (ip & -> & _)%elem_of_list_to_set%list_elem_of_fmap.
      apply elem_of_list_to_set, elem_of_seqZ. pose proof (ipToInt_range ip). lia. }
    apply subseteq_size in Hsub.
    rewrite (size_list_to_set (seqZ 0 (2 ^ 32))) in Hsub by apply NoDup_seqZ.
    rewrite length_seqZ in Hsub. lia.
Qed.

(** X15.  With a positive batch size the producer ends, and the batches it
    sends are the consecutive windows of the newline-terminated lines, in
    stream order: batch [i] is the lines [i * B] to [i * B + B - 1], never
    empty; on a stream that fails every batch sent is full. *)
Theorem producer_batches (B : nat) (r : Reader) :
  (0 < B)%nat →
  ∃ batches,
    producer B r = Some batches
    ∧ (∀ i b, batches !! i = Some b →
         b = take B (drop (i * B) (terminated_lines (pending r)))
         ∧ b ≠ []
         ∧ (is_EOF (tail_err r) = false → length b = B))
    ∧ concat batches
      = (if is_EOF (tail_err r) then terminated_lines (pending r)
         else full_batches B (terminated_lines (pending r))).
Proof.
  intros HB.
  destruct (producer_loop_windows B HB (S (length (pending r))) r ltac:(lia))
    as (batches & Hprod & Hwin).
  destruct (producer_spec B r HB) as (batches' & Hprod' & Hcat & _).
  unfold producer in Hprod'. rewrite Hprod in Hprod'. simplify_eq.
  by exists batches'.
Qed.

Lemma producer_batches_witness :
  (0 < 2)%nat
  ∧ ∃ batches,
      producer 2 {| pending := text [str "10.0.0.1"; str "10.0.0.2"; str "10.0.0.3"] [];
                    tail_err := EOF |} = Some batches
      ∧ (∀ i b, batches !! i = Some b →
           b = take 2 (drop (i * 2)
                         (terminated_lines
                            (text [str "10.0.0.1"; str "10.0.0.2"; str "10.0.0.3"] [])))
           ∧ b ≠ []
           ∧ (is_EOF EOF = false → length b = 2%nat))
      ∧ concat batches
        = (if is_EOF EOF
           then terminated_lines
                  (text [str "10.0.0.1"; str "10.0.0.2"; str "10.0.0.3"] [])
           else full_batches 2
                  (terminated_lines
                     (text [str "10.0.0.1"; str "10.0.0.2"; str "10.0.0.3"] []))).
Proof.
  assert (0 < 2)%nat as HB by lia.
  split; [exact HB|].
  exact (producer_batches 2
           {| pending := text [str "10.0.0.1"; str "10.0.0.2"; str "10.0.0.3"] [];
              tail_err := EOF |} HB).
Defined.

(** X16.  On a stream that ends normally the result of [countUniqueIPs] does
    not depend on the batch size, as long as it is positive. *)
Theorem countUniqueIPs_batch_size (B B' : nat) (r : Reader) :
  (0 < B)%nat → (0 < B')%nat → tail_err r = EOF →
  countUniqueIPs_of B (inr r) = countUniqueIPs_of B' (inr r).
Proof.
  intros HB HB' He.
  by rewrite (countUniqueIPs_of_lines B r HB), (countUniqueIPs_of_lines B' r HB'), He.
Qed.

Lemma countUniqueIPs_batch_size_witness :
  (0 < 1)%nat ∧ (0 < 3)%nat
  ∧ tail_err {| pending := text [str "10.0.0.1"; str "10.0.0.2"; str "10.0.0.1"] [];
                tail_err := EOF |} = EOF
  ∧ countUniqueIPs_of 1
      (inr {| pending := text [str "10.0.0.1"; str "10.0.0.2"; str "10.0.0.1"] [];
              tail_err := EOF |})
    = countUniqueIPs_of 3
        (inr {| pending := text [str "10.0.0.1"; str "10.0.0.2"; str "10.0.0.1"] [];
                tail_err := EOF |}).
Proof.
  assert (0 < 1)%nat as HB by lia.
  assert (0 < 3)%nat as HB' by lia.
  split; [exact HB|]. split; [exact HB'|]. split; [reflexivity|].
  exact (countUniqueIPs_batch_size 1 3
           {| pending := text [str "10.0.0.1"; str "10.0.0.2"; str "10.0.0.1"] [];
              tail_err := EOF |} HB HB' eq_refl).
Defined.

(** X17.  On a stream that ends normally and whose last line ends in a
    newline, [countUniqueIPs] returns, with a nil error, the number of distinct
    ordinals of all the non-empty lines of the input. *)
Theorem countUniqueIPs_complete (r : Reader) :
  tail_err r = EOF → unterminated_line (pending r) = [] →
  countUniqueIPs (inr r) = Some (distinct_ordinals (all_lines (pending r)), None).
Proof.
  intros He Hu. rewrite (countUniqueIPs_normal_end r He).
  unfold all_lines. by rewrite Hu, app_nil_r.
Qed.

Lemma countUniqueIPs_complete_witness :
  tail_err {| pending := text [str "10.0.0.1"; str "10.0.0.2"; str "10.0.0.1"] [];
              tail_err := EOF |} = EOF
  ∧ unterminated_line (text [str "10.0.0.1"; str "10.0.0.2"; str "10.0.0.1"] []) = []
  ∧ countUniqueIPs
      (inr {| pending := text [str "10.0.0.1"; str "10.0.0.2"; str "10.0.0.1"] [];
              tail_err := EOF |})
    = Some (distinct_ordinals
              (all_lines (text [str "10.0.0.1"; str "10.0.0.2"; str "10.0.0.1"] [])),
            None).
Proof.
  assert (unterminated_line (text [str "10.0.0.1"; str "10.0.0.2"; str "10.0.0.1"] [])
          = []) as Hu by (vm_compute; reflexivity).
  split; [reflexivity|]. split; [exact Hu|].
  exact (countUniqueIPs_complete
           {| pending := text [str "10.0.0.1"; str "10.0.0.2"; str "10.0.0.1"] [];
              tail_err := EOF |} eq_refl Hu).
Defined.

(** X18.  When moreover every non-empty line is a dotted quad in the usual
    writing, the count is exact: it is the number of distinct non-empty lines
    of the input. *)
Theorem countUniqueIPs_exact (r : Reader) :
  tail_err r = EOF → unterminated_line (pending r) = [] →
  Forall canonical (nonempty_lines (all_lines (pending r))) →
  countUniqueIPs (inr r)
  = Some (Z.of_nat (length (remove_dups (nonempty_lines (all_lines (pending r))))), None).
Proof.
  intros He Hu Hc. rewrite (countUniqueIPs_normal_end r He).
  rewrite <- (distinct_ordinals_canonical _ Hc).
  unfold all_lines. by rewrite Hu, app_nil_r.
Qed.

Lemma countUniqueIPs_exact_witness :
  tail_err {| pending := text [str "10.0.0.1"; []; str "10.0.0.1"] [];
              tail_err := EOF |} = EOF
  ∧ unterminated_line (text [str "10.0.0.1"; []; str "10.0.0.1"] []) = []
  ∧ Forall canonical (nonempty_lines (all_lines (text [str "10.0.0.1"; []; str "10.0.0.1"] [])))
  ∧ countUniqueIPs
      (inr {| pending := text [str "10.0.0.1"; []; str "10.0.0.1"] [];
              tail_err := EOF |})
    = Some (Z.of_nat (length (remove_dups
                                (nonempty_lines
                                   (all_lines
                                      (text [str "10.0.0.1"; []; str "10.0.0.1"] []))))),
            None).
Proof.
  assert (unterminated_line (text [str "10.0.0.1"; []; str "10.0.0.1"] []) = []) as Hu
    by (vm_compute; reflexivity).
  assert (canonical (str "10.0.0.1")) as Hc1.
  { exists (str "10"), (str "0"), (str "0"), (str "1"). by vm_compute. }
  assert (Forall canonical
            (nonempty_lines (all_lines (text [str "10.0.0.1"; []; str "10.0.0.1"] []))))
    as Hc.
  { replace (nonempty_lines (all_lines (text [str "10.0.0.1"; []; str "10.0.0.1"] [])))
      with [str "10.0.0.1"; str "10.0.0.1"] by (vm_compute; reflexivity).
    repeat constructor; exact Hc1. }
  split; [reflexivity|]. split; [exact Hu|]. split; [exact Hc|].
  exact (countUniqueIPs_exact
           {| pending := text [str "10.0.0.1"; []; str "10.0.0.1"] []; tail_err := EOF |}
           eq_refl Hu Hc).
Defined.

(** X19.  Once the file is open [countUniqueIPs] always returns a nil error,
    whatever ends the stream, and a count between 0 and the number of lines
    read, and at most 2^32. *)
Theorem countUniqueIPs_never_fails (r : Reader) :
  ∃ n,
    countUniqueIPs (inr r) = Some (n, None)
    ∧ 0 <= n <= Z.of_nat (length (terminated_lines (pending r)))
    ∧ n <= 2 ^ 32.
Proof.
  unfold countUniqueIPs. rewrite (countUniqueIPs_of_lines _ r BatchSize_pos).
  eexists. split; [done|].
  set (counted := if is_EOF (tail_err r) then _ else _).
  assert (Hlen : (length counted ≤ length (terminated_lines (pending r)))%nat).
  { subst counted. destruct (is_EOF (tail_err r)); [done|].
    unfold full_batches. rewrite length_take. lia. }
  destruct (distinct_ordinals_bounds counted) as (H1 & H2 & H3). lia.
Qed.

(** ** Executions of the pool *)

Lemma pool_run_batch lines : ∀ q sb rs n m sb',
  processBatch_loop lines sb n = Some (m, sb') →
  rtc pool_step (Build_Pool q [Build_Worker lines n] sb rs)
                (Build_Pool q [] sb' (rs ++ [m])).
Proof.
  induction lines as [|ip rest IH]; intros q sb rs n m sb' H; cbn [processBatch_loop] in H.
  - simplify_eq. apply rtc_once. apply (step_send [] m [] q sb' rs).
  - destruct ip as [|c ip].
    + eapply rtc_l; [apply (step_skip [] rest n [] q sb rs)|]. by apply IH.
    + destruct (MarkIP sb (ipToInt (c :: ip))) as [[r sb1]|] eqn:HM; cbn in H; [|done].
      eapply rtc_l; [by apply (step_mark [] (c :: ip) rest n [] q sb rs r sb1)|].
      by apply IH.
Qed.

Lemma pool_run_worker batches : ∀ sb rs results sb',
  worker batches sb = Some (results, sb') →
  rtc pool_step (Build_Pool batches [] sb rs) (Build_Pool [] [] sb' (rs ++ results)).
Proof.
  induction batches as [|batch rest IH]; intros sb rs results sb' H; cbn [worker] in H.
  - simplify_eq. by rewrite app_nil_r.
  - unfold processBatch in H.
    destruct (processBatch_loop batch sb 0) as [[m sb1]|] eqn:Hl; cbn in H; [|done].
    destruct (worker rest sb1) as [[rs' sb2]|] eqn:Hw; cbn in H; [|done].
    simplify_eq.
    eapply rtc_l; [apply (step_receive batch rest [] sb rs); unfold WorkerCount; cbn; lia|].
    etrans; [apply (pool_run_batch _ _ _ _ _ _ _ Hl)|].
    replace (rs ++ m :: rs') with ((rs ++ [m]) ++ rs') by (by rewrite <- app_assoc).
    by apply IH.
Qed.

Lemma pool_nsteps_measure n p p' :
  nsteps pool_step n p p' → (n + pool_measure p' ≤ pool_measure p)%nat.
Proof.
  induction 1 as [|n x y z Hstep _ IH]; [lia|].
  apply pool_step_measure in Hstep. lia.
Qed.

Lemma pool_start_measure batches :
  pool_measure (pool_start batches)
  = (length (concat batches) + 2 * length batches)%nat.
Proof.
  unfold pool_measure, pool_start. cbn [batchChan busy foldr].
  induction batches as [|b l IH]; [done|].
  cbn [foldr concat length]. rewrite length_app. lia.
Qed.

(** X20.  One worker that takes the batches one after the other is an
    execution of the pool: it ends in the state where every batch is received
    and every result sent, with the results and the bitmap that [worker]
    returns. *)
Theorem worker_is_pool_run (batches : list (list gostring)) (results : list Z)
    (sb' : SegmentedBitmap) :
  worker batches NewSegmentedBitmap = Some (results, sb') →
  rtc pool_step (pool_start batches) (Build_Pool [] [] sb' results)
  ∧ pool_done (Build_Pool [] [] sb' results).
Proof.
  intros Hw. split; [|done].
  apply (pool_run_worker batches NewSegmentedBitmap [] results sb' Hw).
Qed.

Lemma worker_is_pool_run_witness :
  ∃ results sb',
    worker [[str "10.0.0.1"; []]; [str "10.0.0.1"]] NewSegmentedBitmap
    = Some (results, sb')
    ∧ rtc pool_step (pool_start [[str "10.0.0.1"; []]; [str "10.0.0.1"]])
        (Build_Pool [] [] sb' results)
    ∧ pool_done (Build_Pool [] [] sb' results).
Proof.
  assert (∃ results sb',
            worker [[str "10.0.0.1"; []]; [str "10.0.0.1"]] NewSegmentedBitmap
            = Some (results, sb')) as (results & sb' & Hw)
    by (eexists _, _; vm_compute; reflexivity).
  exists results, sb'. split; [exact Hw | exact (worker_is_pool_run _ _ _ Hw)].
Defined.

(** X21.  A pool reached from the start that is not done can take a step: no
    [MarkIP] call of an execution panics and the workers never all block
    while a batch is waiting. *)
Theorem pool_never_stuck (batches : list (list gostring)) (p : Pool) :
  rtc pool_step (pool_start batches) p → ¬ pool_done p → ∃ p', pool_step p p'.
Proof. apply pool_progress. Qed.

Lemma pool_never_stuck_witness :
  rtc pool_step (pool_start [[str "10.0.0.1"]]) (pool_start [[str "10.0.0.1"]])
  ∧ ¬ pool_done (pool_start [[str "10.0.0.1"]])
  ∧ ∃ p', pool_step (pool_start [[str "10.0.0.1"]]) p'.
Proof.
  assert (rtc pool_step (pool_start [[str "10.0.0.1"]]) (pool_start [[str "10.0.0.1"]]))
    as Hrun by reflexivity.
  assert (¬ pool_done (pool_start [[str "10.0.0.1"]])) as Hnd
    by (intros [Hq _]; vm_compute in Hq; discriminate).
  split; [exact Hrun|]. split; [exact Hnd|].
  exact (pool_never_stuck _ _ Hrun Hnd).
Defined.

(** X22.  Every execution of the pool is finite: from the start it has at most
    as many steps as there are lines, plus two for each batch. *)
Theorem pool_run_length (batches : list (list gostring)) (n : nat) (p : Pool) :
  nsteps pool_step n (pool_start batches) p →
  (n ≤ length (concat batches) + 2 * length batches)%nat.
Proof.
  intros Hrun. apply pool_nsteps_measure in Hrun.
  rewrite pool_start_measure in Hrun. lia.
Qed.

Lemma pool_run_length_witness :
  nsteps pool_step 1 (pool_start [[str "10.0.0.1"]])
    (Build_Pool [] [Build_Worker [str "10.0.0.1"] 0] NewSegmentedBitmap [])
  ∧ (1 ≤ length (concat [[str "10.0.0.1"]]) + 2 * length [[str "10.0.0.1"]])%nat.
Proof.
  assert (nsteps pool_step 1 (pool_start [[str "10.0.0.1"]])
            (Build_Pool [] [Build_Worker [str "10.0.0.1"] 0] NewSegmentedBitmap []))
    as Hrun.
  { apply nsteps_once.
    apply (step_receive [str "10.0.0.1"] [] [] NewSegmentedBitmap []).
    vm_compute. lia. }
  split; [exact Hrun | exact (pool_run_length _ _ _ Hrun)].
Defined.

Lemma pending_split ws1 w ws2 (q : list (list gostring)) :
  ipToInt <$> nonempty_lines (held_lines (ws1 ++ w :: ws2) ++ concat q)
  = (ipToInt <$> nonempty_lines (held_lines ws1))
    ++ (ipToInt <$> nonempty_lines (lines_left w))
    ++ (ipToInt <$> nonempty_lines (held_lines ws2 ++ concat q)).
Proof.
  rewrite held_lines_app, held_lines_cons, <- !app_assoc.
  by rewrite !nonempty_lines_app, !fmap_app.
Qed.

(** The bitmap of a reachable pool is the fresh one with the bits of the
    ordinals handled so far, and these with the ordinals still to do are the
    ordinals of all the lines. *)
Lemma pool_bits_invariant batches p :
  rtc pool_step (pool_start batches) p →
  ∃ handled,
    shared p = foldl set_bit NewSegmentedBitmap handled
    ∧ handled ++ (ipToInt <$> nonempty_lines (held_lines (busy p) ++ concat (batchChan p)))
      ≡ₚ ipToInt <$> nonempty_lines (concat batches).
Proof.
  intros Hrun.
  eapply (rtc_ind_r (λ p, ∃ handled,
            shared p = foldl set_bit NewSegmentedBitmap handled
            ∧ handled ++ (ipToInt <$> nonempty_lines
                                        (held_lines (busy p) ++ concat (batchChan p)))
              ≡ₚ ipToInt <$> nonempty_lines (concat batches)));
    [| |exact Hrun].
  - exists []. split; [done|]. done.
  - clear p Hrun. intros p p' _ Hstep (handled & Hsb & Hperm).
    destruct Hstep as [batch q ws sb rs Hw | ws1 rest n ws2 q sb rs
                      | ws1 ip rest n ws2 q sb rs fresh sb' Hip HM | ws1 n ws2 q sb rs];
      cbn [shared busy batchChan] in *.
    + exists handled. split; [done|]. rewrite <- Hperm.
      rewrite held_lines_app. unfold held_lines at 2. cbn [fmap list_fmap concat lines_left].
      by rewrite app_nil_r, <- app_assoc.
    + exists handled. split; [done|]. rewrite <- Hperm.
      by rewrite !pending_split.
    + exists (handled ++ [ipToInt ip]). split.
      * rewrite foldl_app. cbn [foldl]. rewrite <- Hsb. by eapply MarkIP_set_bit.
      * rewrite <- Hperm. rewrite !pending_split. cbn [lines_left].
        unfold nonempty_lines at 5. rewrite filter_cons_True by done.
        fold (nonempty_lines rest). rewrite fmap_cons, <- app_assoc.
        apply Permutation_app_head. cbn [app].
        by rewrite <- Permutation_middle.
    + exists handled. split; [done|]. rewrite <- Hperm.
      rewrite pending_split. cbn [lines_left].
      by rewrite held_lines_app, <- app_assoc, nonempty_lines_app, fmap_app.
Qed.

(** X23.  However the workers interleave, a completed execution of the pool
    ends with the bitmap and the total that one worker gets by processing
    the batches one after the other. *)
Theorem pool_final_state (batches : list (list gostring)) (p : Pool)
    (results : list Z) (sb' : SegmentedBitmap) :
  rtc pool_step (pool_start batches) p → pool_done p →
  worker batches NewSegmentedBitmap = Some (results, sb') →
  shared p = sb' ∧ aggregate (resultChan p) = aggregate results.
Proof.
  intros Hrun Hdone Hw. split.
  - destruct (pool_bits_invariant _ _ Hrun) as (handled & Hsb & Hperm).
    destruct Hdone as [Hq Hb]. rewrite Hq, Hb in Hperm. cbn in Hperm.
    rewrite app_nil_r in Hperm.
    rewrite Hsb, (worker_set_bits _ _ _ _ Hw). by apply foldl_set_bit_perm.
  - rewrite (pool_final_count _ _ Hrun Hdone).
    destruct (worker_tracks batches _ _ NewSegmentedBitmap_tracks)
      as (rs & sb1 & Hw1 & _ & Hsum & _).
    rewrite Hw in Hw1. simplify_eq.
    rewrite Hsum, distinct_ordinals_size, size_empty.
    replace (ordinals_of (concat batches) ∪ ∅) with (ordinals_of (concat batches))
      by set_solver.
    lia.
Qed.

Lemma pool_final_state_witness :
  ∃ results sb',
    rtc pool_step (pool_start [[str "10.0.0.1"; []]; [str "10.0.0.1"]])
      (Build_Pool [] [] sb' results)
    ∧ pool_done (Build_Pool [] [] sb' results)
    ∧ worker [[str "10.0.0.1"; []]; [str "10.0.0.1"]] NewSegmentedBitmap
      = Some (results, sb')
    ∧ shared (Build_Pool [] [] sb' results) = sb'
    ∧ aggregate (resultChan (Build_Pool [] [] sb' results)) = aggregate results.
Proof.
  assert (∃ results sb',
            worker [[str "10.0.0.1"; []]; [str "10.0.0.1"]] NewSegmentedBitmap
            = Some (results, sb')) as (results & sb' & Hw)
    by (eexists _, _; vm_compute; reflexivity).
  assert (rtc pool_step (pool_start [[str "10.0.0.1"; []]; [str "10.0.0.1"]])
            (Build_Pool [] [] sb' results)) as Hrun
    by exact (pool_run_worker _ _ [] _ _ Hw).
  assert (pool_done (Build_Pool [] [] sb' results)) as Hdone by (split; reflexivity).
  exists results, sb'. split; [exact Hrun|]. split; [exact Hdone|]. split; [exact Hw|].
  exact (pool_final_state _ _ _ _ Hrun Hdone Hw).
Defined.

(** X24.  On a well-shaped bitmap [worker] never takes its error branch: it
    sends exactly one result for each batch it receives, each between 0 and
    the number of non-empty lines of its batch, and keeps the shape. *)
Theorem worker_results (batches : list (list gostring)) (sb : SegmentedBitmap) :
  wf_bitmap sb →
  ∃ results sb',
    worker batches sb = Some (results, sb')
    ∧ wf_bitmap sb'
    ∧ Forall2 (λ n batch, 0 <= n <= Z.of_nat (length (nonempty_lines batch)))
        results batches.
Proof.
  revert sb. induction batches as [|batch rest IH]; intros sb Hwf.
  - exists [], sb. split; [done|]. split; [done|]. constructor.
  - destruct (processBatch_loop_wf batch sb 0 Hwf) as (m & sb1 & Hl & Hwf1 & Hm & _).
    destruct (IH sb1 Hwf1) as (results & sb2 & Hw & Hwf2 & Hall).
    exists (m :: results), sb2. split; [|split; [done|]].
    + cbn [worker]. unfold processBatch. rewrite Hl. cbn. by rewrite Hw.
    + constructor; [lia | done].
Qed.

Lemma worker_results_witness :
  wf_bitmap NewSegmentedBitmap
  ∧ ∃ results sb',
      worker [[str "10.0.0.1"; []]; [str "10.0.0.1"]] NewSegmentedBitmap
      = Some (results, sb')
      ∧ wf_bitmap sb'
      ∧ Forall2 (λ n batch, 0 <= n <= Z.of_nat (length (nonempty_lines batch)))
          results [[str "10.0.0.1"; []]; [str "10.0.0.1"]].
Proof.
  split; [exact NewSegmentedBitmap_wf|].
  exact (worker_results _ _ NewSegmentedBitmap_wf).
Defined.
